(** * jess-components: validation, debounce and searchable-select logic

    A shallow embedding of the reactive logic of the component factories
    ([input], [textarea], [checkbox], [toggle], [searchableSelect]) and of
    the two [debounce] helpers, with the properties of the specification
    proved or refuted against it. *)

From Stdlib Require Import ZArith Lia Bool.
From stdpp Require Import base list strings gmap.

Open Scope string_scope.
Open Scope list_scope.
Open Scope nat_scope.

(** ** JavaScript values *)

(** The values that flow through the components: field values, option ids,
    checkbox states.  Numbers are integers here (no fractional part, no NaN
    among the values themselves). *)
Inductive JsValue :=
| JNull
| JUndefined
| JBool (b : bool)
| JNumber (z : Z)
| JString (s : string).

#[global] Instance JsValue_eq_dec : EqDecision JsValue.
Proof. solve_decision. Defined.

(** [a === b] *)
Definition strict_eq (a b : JsValue) : bool := bool_decide (a = b).

(** [a ?? b] : [b] when [a] is [null] or [undefined] *)
Definition nullish (a : JsValue) : bool :=
  match a with JNull | JUndefined => true | _ => false end.

Definition nullish_or (a b : JsValue) : JsValue := if nullish a then b else a.

(** ** The validation pattern shared by the four form components *)
Module Validation.

(** What a validator hands back for one value.  [settled] is the array of
    messages, or [None] for [null]/[undefined].  [hops] is the number of
    further microtask turns the returned promise needs before it settles;
    a validator that returns the array (or [null]) directly, or an already
    settled promise, has [hops = 0].  Promises that settle only in a later
    task (network round trips) are outside this model. *)
Record Awaited := { hops : nat; settled : option (list string) }.

Definition ValidatorFunction := JsValue -> Awaited.

(** The [errors] signal of one component instance together with the
    microtask queue holding the suspended [async valFunction => ...]
    callbacks of that instance, oldest first. *)
Record Form := { errors : list string; microtasks : list Awaited }.

Definition required_message : string := "This field is required.".

(** [errors.value = []] *)
Definition clear_errors (st : Form) : Form :=
  {| errors := []; microtasks := microtasks st |}.

(** [errors.value = errors.value.concat(more)] *)
Definition concat_errors (more : list string) (st : Form) : Form :=
  {| errors := errors st ++ more; microtasks := microtasks st |}.

(** [config.validators?.forEach(async valFunction => { const valErrors =
    await valFunction(newValue); ... })]: every validator is called at
    once, in order; each callback then suspends at its [await] and its
    remainder goes to the back of the microtask queue. *)
Definition forEach_validators (vs : list ValidatorFunction) (newValue : JsValue)
    (st : Form) : Form :=
  {| errors := errors st;
     microtasks := microtasks st ++ map (fun valFunction => valFunction newValue) vs |}.

(** The remainder of one callback, run when its promise has settled:
    [if (valErrors) { errors.value = errors.value.concat(valErrors); }].
    Every array is truthy, the empty one too. *)
Definition resume (valErrors : option (list string)) (errs : list string) : list string :=
  match valErrors with
  | Some e => errs ++ e
  | None => errs
  end.

(** One turn of the microtask queue: the job at the front runs if its
    promise has settled, otherwise it waits one more turn at the back. *)
Definition turn (st : Form) : Form :=
  match microtasks st with
  | [] => st
  | j :: q =>
      match hops j with
      | O => {| errors := resume (settled j) (errors st); microtasks := q |}
      | S h => {| errors := errors st;
                  microtasks := q ++ [{| hops := h; settled := settled j |}] |}
      end
  end.

Fixpoint turns (n : nat) (st : Form) : Form :=
  match n with
  | O => st
  | S n' => turns n' (turn st)
  end.

(** Number of turns the queue needs to run dry. *)
Fixpoint weight (q : list Awaited) : nat :=
  match q with
  | [] => 0
  | j :: q' => S (hops j) + weight q'
  end.

(** The microtask checkpoint at the end of a task: the queue is run until
    it is empty. *)
Definition drain (st : Form) : Form := turns (weight (microtasks st)) st.

(** The results in the order in which the callbacks were started. *)
Definition collected (vs : list ValidatorFunction) (x : JsValue) : list string :=
  concat (omap (fun valFunction => settled (valFunction x)) vs).

Definition synchronous (vs : list ValidatorFunction) (x : JsValue) : Prop :=
  Forall (fun valFunction => hops (valFunction x) = 0) vs.

(** The messages of the jobs of [q] that settle after exactly [k] turns of
    waiting, in queue order. *)
Definition settles_in (k : nat) (q : list Awaited) : list string :=
  concat (omap settled (filter (fun j => hops j = k) q)).

(** The queue after each of its jobs has had one turn: the settled ones are
    gone, the others are one hop closer. *)
Definition next_round (q : list Awaited) : list Awaited :=
  omap (fun j => match hops j with
                 | O => None
                 | S h => Some {| hops := h; settled := settled j |}
                 end) q.

(** The messages of [q] ordered by settlement: fewer hops first, queue order
    among equals. *)
Definition by_settlement (q : list Awaited) : list string :=
  concat (map (fun k => settles_in k q) (seq 0 (weight q))).

(** The messages of the validators in the order in which they reach the
    error list. *)
Definition arrivals (vs : list ValidatorFunction) (x : JsValue) : list string :=
  errors (drain {| errors := [];
                   microtasks := map (fun valFunction => valFunction x) vs |}).

End Validation.

(** ** textarea *)
Module Textarea.
Import Validation.

Record TextareaConfig := {
  validators : list ValidatorFunction;   (* [] when absent *)
  required : bool;                       (* false when absent *)
  value : JsValue;                       (* initial text *)
  value_is_signal : bool                 (* isSignal(config.value) *)
}.

(** [newValue === null || newValue === undefined || newValue === ""] *)
Definition blank (newValue : JsValue) : bool :=
  strict_eq newValue JNull || strict_eq newValue JUndefined
  || strict_eq newValue (JString "").

Definition validate (config : TextareaConfig) (newValue : JsValue) (st : Form) : Form :=
  let st := clear_errors st in
  let st := forEach_validators (validators config) newValue st in
  if required config && blank newValue
  then concat_errors [required_message] st
  else st.

(** State of the instance when the factory returns: [errors] starts as
    [[]] and [validate] has run on the initial value. *)
Definition textarea (config : TextareaConfig) : Form :=
  validate config (value config) {| errors := []; microtasks := [] |}.

(** The [oninput]/[onchange] handlers, as far as validation goes. *)
Definition oninput (config : TextareaConfig) (text : string) (st : Form) : Form :=
  if value_is_signal config then st else validate config (JString text) st.

(** A write to the bound signal: [asSignal(config.value).subscribe(validate)]. *)
Definition on_signal (config : TextareaConfig) (newValue : JsValue) (st : Form) : Form :=
  if value_is_signal config then validate config newValue st else st.

End Textarea.

(** ** checkbox *)
Module Checkbox.
Import Validation.

Record BooleanConfig := {
  validators : list ValidatorFunction;
  required : bool;
  checked : JsValue;                     (* initial state, a boolean *)
  checked_is_signal : bool               (* isSignal(config.checked) *)
}.

(** [newValue === null || newValue === undefined || newValue === false] *)
Definition unset (newValue : JsValue) : bool :=
  strict_eq newValue JNull || strict_eq newValue JUndefined
  || strict_eq newValue (JBool false).

Definition validate (config : BooleanConfig) (newValue : JsValue) (st : Form) : Form :=
  let st := clear_errors st in
  let st := forEach_validators (validators config) newValue st in
  if required config && unset newValue
  then concat_errors [required_message] st
  else st.

Definition checkbox (config : BooleanConfig) : Form :=
  validate config (checked config) {| errors := []; microtasks := [] |}.

(** [onclick]: [const c = e.target.checked; if (!isSignal(config.checked)) validate(c)] *)
Definition onclick (config : BooleanConfig) (c : bool) (st : Form) : Form :=
  if checked_is_signal config then st else validate config (JBool c) st.

Definition on_signal (config : BooleanConfig) (newValue : JsValue) (st : Form) : Form :=
  if checked_is_signal config then validate config newValue st else st.

End Checkbox.

(** ** toggle *)
Module Toggle.
Import Validation.

Definition BooleanConfig := Checkbox.BooleanConfig.

Definition validate (config : BooleanConfig) (newValue : JsValue) (st : Form) : Form :=
  let st := clear_errors st in
  let st := forEach_validators (Checkbox.validators config) newValue st in
  if Checkbox.required config
     && (strict_eq newValue JNull || strict_eq newValue JUndefined
         || strict_eq newValue (JBool false))
  then concat_errors [required_message] st
  else st.

Definition toggle (config : BooleanConfig) : Form :=
  validate config (Checkbox.checked config) {| errors := []; microtasks := [] |}.

Definition onclick (config : BooleanConfig) (c : bool) (st : Form) : Form :=
  if Checkbox.checked_is_signal config then st else validate config (JBool c) st.

Definition on_signal (config : BooleanConfig) (newValue : JsValue) (st : Form) : Form :=
  if Checkbox.checked_is_signal config then validate config newValue st else st.

End Toggle.

(** ** Timers: [setTimeout], [clearTimeout] and the task loop *)
Module Timers.
Section World.
Context {F U : Type}.

(** A pending timeout created by one of the [debounce] helpers.  Its
    callback is [() => { func(); delete debounceMap[identifier]; }], so
    the two captured variables are what is kept.  [handle] stands for the
    [Timeout] object that [setTimeout] returns; every handle is truthy. *)
Record Timer := { handle : nat; due : nat; identifier : string; func : F }.

(** [now] is the clock in milliseconds ([Date.now()]), [pending] the
    timeouts not yet fired nor cleared, in creation order, [debounceMap]
    the module-level map of the debounce helper in use, [user] whatever
    state the debounced functions act on.  [ran] is a log, kept for the
    statements only, of every function called through a debounce helper:
    the time of the call, the identifier it was debounced under and the
    function. *)
Record World := {
  now : nat;
  nextHandle : nat;
  pending : list Timer;
  debounceMap : gmap string nat;
  ran : list (nat * string * F);
  user : U
}.

(** How a function of type [F] acts when it is called. *)
Variable call : F -> World -> World.

(** [func()] *)
Definition invoke (id : string) (f : F) (w : World) : World :=
  call f {| now := now w; nextHandle := nextHandle w; pending := pending w;
            debounceMap := debounceMap w; ran := ran w ++ [(now w, id, f)];
            user := user w |}.

(** [setTimeout(() => { func(); delete debounceMap[identifier]; }, delay)] *)
Definition setTimeout (id : string) (f : F) (delay : nat) (w : World) : nat * World :=
  (nextHandle w,
   {| now := now w; nextHandle := S (nextHandle w);
      pending := pending w ++ [{| handle := nextHandle w; due := now w + delay;
                                  identifier := id; func := f |}];
      debounceMap := debounceMap w; ran := ran w; user := user w |}).

(** [clearTimeout(h)]; clearing a timeout that has fired does nothing. *)
Definition clearTimeout (h : nat) (w : World) : World :=
  {| now := now w; nextHandle := nextHandle w;
     pending := filter (fun tm => handle tm ≠ h) (pending w);
     debounceMap := debounceMap w; ran := ran w; user := user w |}.

Definition set_debounceMap (m : gmap string nat) (w : World) : World :=
  {| now := now w; nextHandle := nextHandle w; pending := pending w;
     debounceMap := m; ran := ran w; user := user w |}.

(** The body of a timeout's callback. *)
Definition callback (tm : Timer) (w : World) : World :=
  let w := invoke (identifier tm) (func tm) w in
  set_debounceMap (delete (identifier tm) (debounceMap w)) w.

(** The timeout the loop fires next: the least due time, and among equal
    due times the one created first. *)
Fixpoint earliest (l : list Timer) : option Timer :=
  match l with
  | [] => None
  | tm :: l' =>
      match earliest l' with
      | Some tm' => if due tm' <? due tm then Some tm' else Some tm
      | None => Some tm
      end
  end.

(** One timer task: the clock has reached the due time, the timeout
    leaves the pending list and its callback runs. *)
Definition fire (tm : Timer) (w : World) : World :=
  callback tm
    {| now := now w `max` due tm; nextHandle := nextHandle w;
       pending := filter (fun tm' => handle tm' ≠ handle tm) (pending w);
       debounceMap := debounceMap w; ran := ran w; user := user w |}.

Fixpoint run_due (fuel : nat) (until : nat) (w : World) : World :=
  match fuel with
  | O => w
  | S fuel' =>
      match earliest (pending w) with
      | Some tm => if due tm <=? until then run_due fuel' until (fire tm w) else w
      | None => w
      end
  end.

(** Time passes until the clock shows [until]: the timeouts due by then
    fire in order, each as soon as it is due.  The fuel covers every
    pending timeout, which is all of them when the called functions create
    no timeouts themselves. *)
Definition advance (until : nat) (w : World) : World :=
  let w := run_due (length (pending w)) until w in
  {| now := now w `max` until; nextHandle := nextHandle w; pending := pending w;
     debounceMap := debounceMap w; ran := ran w; user := user w |}.

(** The timeout a scheduling call creates in [w], and the timeouts such
    a call for the identifier [k] does not clear. *)
Definition armed (k : string) (f : F) (delay : nat) (w : World) : Timer :=
  {| handle := nextHandle w; due := now w + delay; identifier := k; func := f |}.

Definition kept (k : string) (w : World) : list Timer :=
  filter (fun tm => Some (handle tm) ≠ debounceMap w !! k) (pending w).

(** The calls made under the identifier [k], oldest first. *)
Definition calls_of (k : string) (w : World) : list (nat * string * F) :=
  filter (fun e => e.1.2 = k) (ran w).

(** The shape the two helpers maintain: handles are used once and come
    from the counter, an identifier has at most one pending timeout, and
    the map points at it. *)
Definition well_formed (w : World) : Prop :=
  NoDup (map handle (pending w))
  ∧ NoDup (map identifier (pending w))
  ∧ Forall (fun tm => handle tm < nextHandle w
                      ∧ debounceMap w !! identifier tm = Some (handle tm))
      (pending w).

(** The called functions leave the timers, the map and the log alone. *)
Definition frame : Prop :=
  forall f w,
    now (call f w) = now w /\ nextHandle (call f w) = nextHandle w
    /\ pending (call f w) = pending w /\ debounceMap (call f w) = debounceMap w
    /\ ran (call f w) = ran w.

End World.

Arguments Timer : clear implicits.
Arguments World : clear implicits.
End Timers.

(** ** debounce, as in [Debounce.ts] *)
Module DebounceTs.
Import Timers.
Section Debounce.
Context {F U : Type} (call : F -> World F U -> World F U).

(** What follows the early return: the delay is truthy here. *)
Definition debounce_later (identifier : string) (func : F) (delay : nat)
    (w : World F U) : World F U :=
  let w := match debounceMap w !! identifier with
           | Some h => clearTimeout h w
           | None => w
           end in
  let '(h, w) := setTimeout identifier func delay w in
  set_debounceMap (<[identifier := h]> (debounceMap w)) w.

(** [debounce(identifier, func, delay = 0)]; [None] is an absent
    argument. *)
Definition debounce (identifier : string) (func : F) (delay : option nat)
    (w : World F U) : World F U :=
  let delay := default 0 delay in
  if delay =? 0 then invoke call identifier func w
  else debounce_later identifier func delay w.

End Debounce.
End DebounceTs.

(** ** debounce, the second variant (no early return, default 500) *)
Module DebounceAlt.
Import Timers.
Section Debounce.
Context {F U : Type}.

Definition debounce (identifier : string) (func : F) (delay : option nat)
    (w : World F U) : World F U :=
  let delay := default 500 delay in
  let w := match debounceMap w !! identifier with
           | Some h => clearTimeout h w
           | None => w
           end in
  let '(h, w) := setTimeout identifier func delay w in
  set_debounceMap (<[identifier := h]> (debounceMap w)) w.

End Debounce.
End DebounceAlt.

(** ** input *)
Module Input.
Import Validation Timers.

(** The last field is no part of the TypeScript configuration.  The node
    builder of the rendering runtime is an external package, taken here as
    a parameter: [.value(value)] binds the element's [value] property to
    the signal, and [display v] is the text the element holds once the
    signal has been written with [v]. *)
Record InputConfig := {
  validators : list ValidatorFunction;
  required : bool;
  value : JsValue;                       (* initial value *)
  value_is_signal : bool;                (* isSignal(config.value) *)
  debounce : option nat;                 (* config.debounce, milliseconds *)
  has_onchange : bool;                   (* config.onchange is set *)
  inputId : string;                      (* the v4() drawn for the instance *)
  display : JsValue -> string
}.

(** The three arrow functions handed to [debounce].  The last two close
    over the event [e], not over its text: they read [e.target.value] when
    they are called. *)
Inductive Closure :=
| ValidateLater (newValue : JsValue)     (* () => validate(newValue) *)
| ChangeLater                            (* () => config.onchange(e.target.value) *)
| ValueLater.                            (* () => value.value = e.target.value *)

(** Local state of one instance.  [bound] is the current content of the
    [value] signal, [shown] the element's [value] property (what
    [e.target.value] reads), [reported] the arguments [config.onchange] has
    been called with. *)
Record State := {
  form : Form;
  touched : bool;
  lastChange : nat;
  bound : JsValue;
  shown : string;
  reported : list JsValue
}.

Abbreviation InputWorld := (Timers.World Closure State).

Definition set_user (u : State) (w : InputWorld) : InputWorld :=
  {| now := now w; nextHandle := nextHandle w; pending := pending w;
     debounceMap := debounceMap w; ran := ran w; user := u |}.

Definition on_form (f : Form -> Form) (w : InputWorld) : InputWorld :=
  set_user {| form := f (form (user w)); touched := touched (user w);
              lastChange := lastChange (user w); bound := bound (user w);
              shown := shown (user w); reported := reported (user w) |} w.

Definition blank (newValue : JsValue) : bool :=
  strict_eq newValue JNull || strict_eq newValue JUndefined
  || strict_eq newValue (JString "").

(** [if (config.debounce) { if (Date.now() - lastChange < config.debounce) ... }] *)
Definition held_back (config : InputConfig) (w : InputWorld) : option nat :=
  match debounce config with
  | Some (S d) =>
      if (Z.of_nat (now w) - Z.of_nat (lastChange (user w)) <? Z.of_nat (S d))%Z
      then Some (S d) else None
  | _ => None
  end.

(** [validate].  Inside the guard [config.debounce] is truthy, so the call
    of [debounce] goes past its early return. *)
Definition validate (config : InputConfig) (newValue : JsValue) (w : InputWorld) : InputWorld :=
  let w := on_form clear_errors w in
  match held_back config w with
  | Some delay =>
      DebounceTs.debounce_later (inputId config +:+ "validate")
        (ValidateLater newValue) delay w
  | None =>
      let w := on_form (forEach_validators (validators config) newValue) w in
      if required config && blank newValue && touched (user w)
      then on_form (concat_errors [required_message]) w
      else w
  end.

(** A write to the [value] signal.  The element is bound to the signal and
    shows the written value; [validate] is subscribed to the signal exactly
    when the signal came with the configuration. *)
Definition write_value (config : InputConfig) (v : JsValue) (w : InputWorld) : InputWorld :=
  let w := set_user {| form := form (user w); touched := touched (user w);
                       lastChange := lastChange (user w); bound := v;
                       shown := display config v;
                       reported := reported (user w) |} w in
  if value_is_signal config then validate config v w else w.

Definition call (config : InputConfig) (c : Closure) (w : InputWorld) : InputWorld :=
  match c with
  | ValidateLater newValue => validate config newValue w
  | ChangeLater =>
      set_user {| form := form (user w); touched := touched (user w);
                  lastChange := lastChange (user w); bound := bound (user w);
                  shown := shown (user w);
                  reported := reported (user w) ++ [JString (shown (user w))] |} w
  | ValueLater => write_value config (JString (shown (user w))) w
  end.

(** The signals of an instance created at clock [t], with [h] the next free
    timeout handle, before the first pass. *)
Definition fresh (config : InputConfig) (t h : nat) : InputWorld :=
  {| now := t; nextHandle := h; pending := []; debounceMap := ∅; ran := [];
     user := {| form := {| errors := []; microtasks := [] |};
                touched := false; lastChange := 0;
                bound := value config; shown := display config (value config);
                reported := [] |} |}.

(** [input]: the first pass, the local signal when none came with the
    configuration, and the element, which shows the value of the signal it
    is bound to. *)
Definition input (config : InputConfig) (t h : nat) : InputWorld :=
  let w := validate config (value config) (fresh config t h) in
  if value_is_signal config then w
  else set_user {| form := form (user w); touched := touched (user w);
                   lastChange := lastChange (user w);
                   bound := nullish_or (value config) (JString "");
                   shown := display config (nullish_or (value config) (JString ""));
                   reported := reported (user w) |} w.

(** The [oninput] and [onchange] handlers (they are the same), for an event
    dispatched when the user has made the element hold [text]. *)
Definition oninput (config : InputConfig) (text : string) (w : InputWorld) : InputWorld :=
  let w := set_user {| form := form (user w); touched := touched (user w);
                       lastChange := lastChange (user w); bound := bound (user w);
                       shown := text; reported := reported (user w) |} w in
  let w := set_user {| form := form (user w); touched := true;
                       lastChange := lastChange (user w); bound := bound (user w);
                       shown := shown (user w); reported := reported (user w) |} w in
  let w := set_user {| form := form (user w); touched := touched (user w);
                       lastChange := now w; bound := bound (user w);
                       shown := shown (user w); reported := reported (user w) |} w in
  let w := if value_is_signal config then w
           else validate config (JString (shown (user w))) w in
  let w := if has_onchange config
           then DebounceTs.debounce (call config) (inputId config +:+ "change")
                  ChangeLater (debounce config) w
           else w in
  DebounceTs.debounce (call config) (inputId config +:+ "value")
    ValueLater (debounce config) w.

(** The microtask checkpoint that ends a task. *)
Definition checkpoint (w : InputWorld) : InputWorld := on_form drain w.

Definition at_time (t : nat) (w : InputWorld) : InputWorld :=
  {| now := now w `max` t; nextHandle := nextHandle w; pending := pending w;
     debounceMap := debounceMap w; ran := ran w; user := user w |}.

(** The tasks an instance goes through. *)
Inductive Event :=
| Edit (t : nat) (text : string)         (* the user edits the field *)
| Push (t : nat) (v : JsValue)           (* the bound signal is written from outside *)
| Timeout (t : nat) (h : nat).           (* the timeout with handle [h] fires *)

Definition step (config : InputConfig) (w : InputWorld) (ev : Event) : InputWorld :=
  match ev with
  | Edit t text => checkpoint (oninput config text (at_time t w))
  | Push t v =>
      if value_is_signal config then checkpoint (write_value config v (at_time t w))
      else at_time t w
  | Timeout t h =>
      match filter (fun tm => handle tm = h) (pending w) with
      | tm :: _ => if due tm <=? t
                   then checkpoint (fire (call config) tm (at_time t w))
                   else at_time t w
      | [] => at_time t w
      end
  end.

Definition run (config : InputConfig) (t h : nat) (evs : list Event) : InputWorld :=
  foldl (step config) (checkpoint (input config t h)) evs.

Definition is_edit (ev : Event) : bool :=
  match ev with Edit _ _ => true | _ => false end.

End Input.

(** ** searchableSelect *)
Module SearchableSelect.

(** A JavaScript number as far as the highlight index needs it. *)
Inductive Num := Finite (z : Z) | NaN.

(** [a % b]: the remainder takes the sign of the dividend; it is [NaN]
    when the divisor is zero.  A negative zero is not told apart from zero:
    as an array index and under [+] and [===] the two act alike. *)
Definition js_rem (a b : Num) : Num :=
  match a, b with
  | Finite x, Finite y => if (y =? 0)%Z then NaN else Finite (Z.rem x y)
  | _, _ => NaN
  end.

Definition js_add (a b : Num) : Num :=
  match a, b with
  | Finite x, Finite y => Finite (x + y)
  | _, _ => NaN
  end.

(** [l[i]]: [None] is [undefined]. *)
Definition at_index {A} (l : list A) (i : Num) : option A :=
  match i with
  | Finite z => if (0 <=? z)%Z then l !! Z.to_nat z else None
  | NaN => None
  end.

(** [l.findIndex(p)] *)
Fixpoint findIndex {A} (p : A -> bool) (l : list A) : Z :=
  match l with
  | [] => -1
  | x :: l' =>
      if p x then 0
      else let r := findIndex p l' in if (r =? -1)%Z then -1 else r + 1
  end%Z.

(** [s.toLowerCase()], on ASCII text: the letters A to Z are mapped, every
    other character is left as it is. *)
Definition lower_char (c : Ascii.ascii) : Ascii.ascii :=
  let n := Ascii.nat_of_ascii c in
  if (65 <=? n) && (n <=? 90) then Ascii.ascii_of_nat (n + 32) else c.

Fixpoint toLowerCase (s : string) : string :=
  match s with
  | EmptyString => EmptyString
  | String c s' => String (lower_char c) (toLowerCase s')
  end.

(** [s.includes(sub)] *)
Fixpoint includes (s sub : string) : bool :=
  String.prefix sub s
  || match s with
     | EmptyString => false
     | String _ s' => includes s' sub
     end.

Record SelectOption := { id : JsValue; name : string }.

(** The seven signals of one instance. *)
Record State := {
  options : list SelectOption;
  value : JsValue;
  search : string;
  optionsVisible : bool;
  filtered : list SelectOption;
  selectedIndex : Num;
  selectedId : JsValue
}.

(** Modelled from the spec: the reactive-value primitive of the rendering
    runtime is an external package; a write stores the new value and then
    calls the subscribers synchronously, in subscription order.  Each
    [write_*] below is the store followed by the subscribers this
    component registered on that signal. *)
Definition write_selectedId (v : JsValue) (s : State) : State :=
  {| options := options s; value := value s; search := search s;
     optionsVisible := optionsVisible s; filtered := filtered s;
     selectedIndex := selectedIndex s; selectedId := v |}.

(** [selectedId.value = filtered.value[selectedIndex.value]?.id] *)
Definition updateSelectedId (s : State) : State :=
  write_selectedId
    (match at_index (filtered s) (selectedIndex s) with
     | Some o => id o
     | None => JUndefined
     end) s.

Definition store_selectedIndex (i : Num) (s : State) : State :=
  {| options := options s; value := value s; search := search s;
     optionsVisible := optionsVisible s; filtered := filtered s;
     selectedIndex := i; selectedId := selectedId s |}.

(** [selectedIndex.subscribe(updateSelectedId)] *)
Definition write_selectedIndex (i : Num) (s : State) : State :=
  updateSelectedId (store_selectedIndex i s).

Definition matches (needle : string) (o : SelectOption) : bool :=
  includes (toLowerCase (name o)) (toLowerCase needle).

(** [selectedIndex.value = options.value.findIndex(o =>
    o.name.toLowerCase().includes(search.value.toLowerCase()))] *)
Definition filter (s : State) : State :=
  write_selectedIndex (Finite (findIndex (matches (search s)) (options s))) s.

(** [search.subscribe(filter)] *)
Definition write_search (text : string) (s : State) : State :=
  filter
    {| options := options s; value := value s; search := text;
       optionsVisible := optionsVisible s; filtered := filtered s;
       selectedIndex := selectedIndex s; selectedId := selectedId s |}.

(** [options.subscribe(filter)] *)
Definition write_options (os : list SelectOption) (s : State) : State :=
  filter
    {| options := os; value := value s; search := search s;
       optionsVisible := optionsVisible s; filtered := filtered s;
       selectedIndex := selectedIndex s; selectedId := selectedId s |}.

Definition write_optionsVisible (b : bool) (s : State) : State :=
  {| options := options s; value := value s; search := search s;
     optionsVisible := b; filtered := filtered s;
     selectedIndex := selectedIndex s; selectedId := selectedId s |}.

(** [options.value.find(o => o.id === v)?.name ?? ""] *)
Definition label_of (os : list SelectOption) (v : JsValue) : string :=
  match List.find (fun o => strict_eq (id o) v) os with
  | Some o => name o
  | None => ""
  end.

(** [value.subscribe((newVal) => { search.value = ...; })] *)
Definition write_value (newVal : JsValue) (s : State) : State :=
  let s := {| options := options s; value := newVal; search := search s;
              optionsVisible := optionsVisible s; filtered := filtered s;
              selectedIndex := selectedIndex s; selectedId := selectedId s |} in
  write_search (label_of (options s) newVal) s.

(** The instance when the factory returns.  The first [filter()] runs
    before anything is subscribed to [selectedIndex], so it only stores;
    [selectedId] is created after it, from [options.value[0]?.id ?? null],
    and [updateSelectedId()] is then called once by hand. *)
Definition searchableSelect (os : list SelectOption) (v : JsValue) : State :=
  let s := {| options := os; value := v; search := label_of os v;
              optionsVisible := false; filtered := os;
              selectedIndex := Finite 0; selectedId := JUndefined |} in
  let s := store_selectedIndex (Finite (findIndex (matches (search s)) (options s))) s in
  let s := write_selectedId (nullish_or (match os !! 0 with
                                         | Some o => id o
                                         | None => JUndefined
                                         end) JNull) s in
  updateSelectedId s.

Inductive Key :=
| Enter | ArrowDown | ArrowUp | Escape | Tab
| Other.                               (* any other key *)

Definition length_of (l : list SelectOption) : Num := Finite (Z.of_nat (length l)).

(** The [onkeydown] handler of the text field.  For the other keys the
    handler only arms a timeout; its effect is [commit_text] below. *)
Definition onkeydown (key : Key) (s : State) : State :=
  match key with
  | Enter =>
      let selectedOption := at_index (filtered s) (selectedIndex s) in
      let s := write_value
                 (nullish_or (match selectedOption with
                              | Some o => id o
                              | None => JUndefined
                              end) (value s)) s in
      let s := write_search
                 (match selectedOption with
                  | Some o => name o
                  | None => search s
                  end) s in
      write_optionsVisible false s
  | ArrowDown =>
      write_selectedIndex
        (js_rem (js_add (selectedIndex s) (Finite 1)) (length_of (filtered s))) s
  | ArrowUp =>
      write_selectedIndex
        (js_rem (js_add (js_add (selectedIndex s) (Finite (-1))) (length_of (filtered s)))
           (length_of (filtered s))) s
  | Escape | Tab => write_optionsVisible false s
  | Other => s
  end.

(** [setTimeout(() => { search.value = e.target.value; })] firing. *)
Definition commit_text (text : string) (s : State) : State := write_search text s.

(** [searchSelectOption]'s [onclick] *)
Definition onclick (option : SelectOption) (s : State) : State :=
  let s := write_value (id option) s in
  let s := write_search (name option) s in
  write_optionsVisible false s.

Inductive Event :=
| Focus                                  (* the text field gets the focus *)
| KeyDown (key : Key)
| Typed (text : string)                  (* the armed timeout commits the text *)
| DropdownClick                          (* the arrow next to the text field *)
| OptionClick (k : nat)                  (* the k-th rendered option *)
| ValueWritten (v : JsValue)             (* the value signal is written from outside *)
| OptionsWritten (os : list SelectOption).

Definition step (s : State) (ev : Event) : State :=
  match ev with
  | Focus => write_optionsVisible true s
  | KeyDown key => onkeydown key s
  | Typed text => commit_text text s
  | DropdownClick => write_optionsVisible (negb (optionsVisible s)) s
  | OptionClick k =>
      match optionsVisible s, filtered s !! k with
      | true, Some o => onclick o s
      | _, _ => s
      end
  | ValueWritten v => write_value v s
  | OptionsWritten os => write_options os s
  end.

Definition run (os : list SelectOption) (v : JsValue) (evs : list Event) : State :=
  foldl step (searchableSelect os v) evs.

End SearchableSelect.

(** ** Sequences of debounce calls *)
Module DebounceRuns.
Import Timers.
Section Runs.
Context {F U : Type} (call : F -> World F U -> World F U).

(** Further calls for one identifier and one delay, each made when the
    clock shows the given time. *)
Fixpoint burst (debounce : string -> F -> option nat -> World F U -> World F U)
    (k : string) (d : nat) (calls : list (nat * F)) (w : World F U) : World F U :=
  match calls with
  | [] => w
  | (t, f) :: rest => burst debounce k d rest (debounce k f (Some d) (advance call t w))
  end.

(** Every call comes before the delay of the one before it has elapsed;
    [t] is the time of the call before the first of [calls]. *)
Fixpoint chained (t d : nat) (calls : list (nat * F)) : Prop :=
  match calls with
  | [] => True
  | (t', _) :: rest => t <= t' /\ t' < t + d /\ chained t' d rest
  end.

(** What a program does with the helper of [Debounce.ts]: it calls it, or
    it lets time pass. *)
Inductive Op :=
| Call (k : string) (f : F) (delay : option nat)
| Wait (until : nat).

Definition apply_op (w : World F U) (op : Op) : World F U :=
  match op with
  | Call k f delay => DebounceTs.debounce call k f delay w
  | Wait until => advance call until w
  end.

Definition run_ops (w : World F U) (ops : list Op) : World F U :=
  foldl apply_op w ops.

(** Every entry of the map belongs to a pending timeout. *)
Definition tight (w : World F U) : Prop :=
  forall k h, debounceMap w !! k = Some h ->
    exists tm, tm ∈ pending w /\ identifier tm = k /\ handle tm = h.

(** The world of a freshly loaded module: nothing pending, the map empty. *)
Definition loaded (t h : nat) (u : U) : World F U :=
  {| now := t; nextHandle := h; pending := []; debounceMap := ∅; ran := []; user := u |}.

End Runs.
End DebounceRuns.

(** ** The signals derived from the error list *)
Module Derived.
Import Validation.

(** [hasError = compute((e) => e.length > 0, errors)] *)
Definition hasError (st : Form) : bool := 0 <? length (errors st).

(** [invalidClass = compute((has) => has ? "invalid" : "valid", hasError)] *)
Definition invalidClass (st : Form) : string :=
  if hasError st then "invalid" else "valid".

(** A validator result that adds nothing to the list: [null], [undefined]
    or an empty array. *)
Definition silent (r : Awaited) : Prop := settled r = None \/ settled r = Some [].

End Derived.

(** ** Sample configurations *)
Module Samples.
Import Validation.

(** A validator answering at once: texts under three characters are
    rejected. *)
Definition too_short : ValidatorFunction :=
  fun x =>
    {| hops := 0;
       settled := match x with
                  | JString s => if String.length s <? 3 then Some ["Too short."] else None
                  | _ => None
                  end |}.

(** A validator whose promise settles two microtask turns later. *)
Definition slow_check : ValidatorFunction :=
  fun _ => {| hops := 2; settled := Some ["Checked late."] |}.

(** A form still showing the messages of an earlier pass. *)
Definition stale : Form := {| errors := ["Old message."]; microtasks := [] |}.

Definition notes : Textarea.TextareaConfig :=
  {| Textarea.validators := [too_short]; Textarea.required := true;
     Textarea.value := JString ""; Textarea.value_is_signal := false |}.

Definition terms : Checkbox.BooleanConfig :=
  {| Checkbox.validators := []; Checkbox.required := true;
     Checkbox.checked := JBool false; Checkbox.checked_is_signal := false |}.

(** An element that shows a string as it is and nothing for other values. *)
Definition as_text (v : JsValue) : string :=
  match v with JString s => s | _ => "" end.

Definition username : Input.InputConfig :=
  {| Input.validators := [too_short]; Input.required := true;
     Input.value := JString ""; Input.value_is_signal := false;
     Input.debounce := Some 300; Input.has_onchange := true;
     Input.inputId := "u1"; Input.display := as_text |}.

(** The [username] field some time after an edit at clock 1000. *)
Definition edited : Input.InputWorld :=
  {| Timers.now := 2000; Timers.nextHandle := 4; Timers.pending := [];
     Timers.debounceMap := ∅; Timers.ran := [];
     Timers.user := {| Input.form := stale; Input.touched := true;
                       Input.lastChange := 1000; Input.bound := JString "ab";
                       Input.shown := "ab";
                       Input.reported := [JString "ab"] |} |}.

Definition untouched : Input.InputWorld := Input.fresh username 2000 1.

(** Options of a searchable select. *)
Definition optA : SearchableSelect.SelectOption :=
  {| SearchableSelect.id := JNumber 1; SearchableSelect.name := "A" |}.
Definition optB : SearchableSelect.SelectOption :=
  {| SearchableSelect.id := JNumber 2; SearchableSelect.name := "B" |}.
Definition optC : SearchableSelect.SelectOption :=
  {| SearchableSelect.id := JNumber 3; SearchableSelect.name := "C" |}.

(** An entry standing for "no choice": its id is [null]. *)
Definition optNone : SearchableSelect.SelectOption :=
  {| SearchableSelect.id := JNull; SearchableSelect.name := "None" |}.

(** Debounced functions that write their name into a journal. *)
Definition say (f : string) (w : Timers.World string (list string))
    : Timers.World string (list string) :=
  {| Timers.now := Timers.now w; Timers.nextHandle := Timers.nextHandle w;
     Timers.pending := Timers.pending w; Timers.debounceMap := Timers.debounceMap w;
     Timers.ran := Timers.ran w; Timers.user := Timers.user w ++ [f] |}.

(** A world at clock 1000 in which a save is pending under another
    identifier, due at 1050. *)
Definition busy : Timers.World string (list string) :=
  {| Timers.now := 1000; Timers.nextHandle := 8;
     Timers.pending := [{| Timers.handle := 7; Timers.due := 1050;
                           Timers.identifier := "save"; Timers.func := "save draft" |}];
     Timers.debounceMap := {[ "save" := 7 ]};
     Timers.ran := []; Timers.user := [] |}.

(** A field without debounce delay, and one bound to a signal. *)
Definition nickname : Input.InputConfig :=
  {| Input.validators := [too_short]; Input.required := true;
     Input.value := JString ""; Input.value_is_signal := false;
     Input.debounce := None; Input.has_onchange := true;
     Input.inputId := "n1"; Input.display := as_text |}.

Definition bound_name : Input.InputConfig :=
  {| Input.validators := [too_short]; Input.required := true;
     Input.value := JString "abc"; Input.value_is_signal := true;
     Input.debounce := Some 300; Input.has_onchange := false;
     Input.inputId := "b1"; Input.display := as_text |}.

(** Debounced functions that debounce themselves again, as a poll does. *)
Definition again (f : string) (w : Timers.World string (list string))
    : Timers.World string (list string) :=
  DebounceTs.debounce_later "poll" f 50 w.

End Samples.

(** * Properties *)

(** ** The microtask queue *)
Section QueueFacts.
Import Validation.

Lemma weight_app q1 q2 : weight (q1 ++ q2) = weight q1 + weight q2.
Proof.
  induction q1 as [|j q1 IH]; simpl; [done|].
  rewrite IH. lia.
Qed.

Lemma turn_weight st :
  microtasks st ≠ [] → S (weight (microtasks (turn st))) = weight (microtasks st).
Proof.
  destruct st as [e [|[h r] q]]; [done|]. intros _.
  unfold turn. simpl. destruct h as [|h]; simpl; [done|].
  rewrite weight_app. simpl. lia.
Qed.

Lemma turns_idle n e : turns n {| errors := e; microtasks := [] |}
                       = {| errors := e; microtasks := [] |}.
Proof. induction n as [|n IH]; simpl; [done|]. apply IH. Qed.

(** The fuel of [drain] is enough: the queue is empty afterwards. *)
Lemma turns_empties n st :
  weight (microtasks st) ≤ n → microtasks (turns n st) = [].
Proof.
  revert st. induction n as [|n IH]; intros st Hw; simpl.
  - destruct st as [e [|j q]]; [done|]. simpl in Hw. lia.
  - destruct (decide (microtasks st = [])) as [Hq|Hq].
    + destruct st as [e q]. simpl in Hq. subst q.
      unfold turn. simpl. by rewrite turns_idle.
    + apply IH. pose proof (turn_weight st Hq). lia.
Qed.

Lemma drain_empties st : microtasks (drain st) = [].
Proof. unfold drain. by apply turns_empties. Qed.

Lemma resume_app r e : resume r e = e ++ resume r [].
Proof. destruct r; simpl; [done|]. by rewrite app_nil_r. Qed.

(** What is already in the list stays in front of whatever arrives. *)
Lemma turns_prefix n e q :
  errors (turns n {| errors := e; microtasks := q |})
  = e ++ errors (turns n {| errors := []; microtasks := q |}).
Proof.
  revert e q. induction n as [|n IH]; intros e q; simpl.
  - by rewrite app_nil_r.
  - destruct q as [|[h r] q]; unfold turn; simpl.
    + rewrite !turns_idle. simpl. by rewrite app_nil_r.
    + destruct h as [|h].
      * rewrite IH. rewrite (IH (resume r [])).
        rewrite (resume_app r e). by rewrite app_assoc.
      * apply IH.
Qed.

Lemma drain_prefix e q :
  errors (drain {| errors := e; microtasks := q |})
  = e ++ errors (drain {| errors := []; microtasks := q |}).
Proof. unfold drain. simpl. apply turns_prefix. Qed.

(** Jobs that have all settled run front to back. *)
Lemma turns_settled q e :
  Forall (fun j => hops j = 0) q →
  turns (length q) {| errors := e; microtasks := q |}
  = {| errors := e ++ concat (omap settled q); microtasks := [] |}.
Proof.
  revert e. induction q as [|[h r] q IH]; intros e Hq; simpl.
  - by rewrite app_nil_r.
  - inversion Hq as [|? ? Hh Hq']; subst. simpl in Hh. subst h.
    unfold turn. simpl. rewrite IH by done.
    destruct r as [l|]; simpl; [by rewrite app_assoc | done].
Qed.

Lemma weight_settled q : Forall (fun j => hops j = 0) q → weight q = length q.
Proof.
  induction 1 as [|j q Hj _ IH]; [done|].
  simpl. rewrite IH, Hj. done.
Qed.

Lemma drain_settled q e :
  Forall (fun j => hops j = 0) q →
  drain {| errors := e; microtasks := q |}
  = {| errors := e ++ concat (omap settled q); microtasks := [] |}.
Proof.
  intros Hq. unfold drain. simpl. rewrite weight_settled by done.
  by apply turns_settled.
Qed.

Lemma turns_add a b st : turns (a + b) st = turns b (turns a st).
Proof. revert st. induction a as [|a IH]; intros st; simpl; [done|]. apply IH. Qed.

(** One round: every job of [q] gets its turn, in order, while the jobs
    behind it wait. *)
Lemma turns_round q e r :
  turns (length q) {| errors := e; microtasks := q ++ r |}
  = {| errors := e ++ settles_in 0 q; microtasks := r ++ next_round q |}.
Proof.
  revert e r. induction q as [|[h v] q IH]; intros e r.
  - simpl. unfold settles_in. simpl. by rewrite !app_nil_r.
  - change (length ({| hops := h; settled := v |} :: q)) with (S (length q)).
    cbn [turns]. unfold turn. cbn [microtasks app hops settled errors].
    destruct h as [|h].
    + rewrite IH. f_equal. unfold settles_in.
      rewrite filter_cons_True by done. simpl.
      destruct v as [l|]; simpl; [by rewrite app_assoc | done].
    + rewrite <- app_assoc. rewrite IH. f_equal. by rewrite <- app_assoc.
Qed.

Lemma next_round_cons j q :
  next_round (j :: q)
  = match hops j with
    | O => next_round q
    | S h => {| hops := h; settled := settled j |} :: next_round q
    end.
Proof. unfold next_round. simpl. by destruct (hops j). Qed.

Lemma weight_round q : weight q = length q + weight (next_round q).
Proof.
  induction q as [|[h v] q IH]; [done|].
  rewrite next_round_cons. simpl. destruct h as [|h]; simpl; lia.
Qed.

Lemma drain_round e q :
  drain {| errors := e; microtasks := q |}
  = drain {| errors := e ++ settles_in 0 q; microtasks := next_round q |}.
Proof.
  unfold drain. simpl. rewrite (weight_round q), turns_add.
  pose proof (turns_round q e []) as H. rewrite app_nil_r in H. by rewrite H.
Qed.

Lemma settles_in_cons k j q :
  settles_in k (j :: q)
  = (if decide (hops j = k) then default [] (settled j) else []) ++ settles_in k q.
Proof.
  unfold settles_in. rewrite filter_cons.
  destruct (decide (hops j = k)); [|done]. simpl. by destruct (settled j).
Qed.

Lemma settles_in_next k q : settles_in k (next_round q) = settles_in (S k) q.
Proof.
  induction q as [|[h v] q IH]; [done|].
  rewrite next_round_cons, (settles_in_cons (S k)). cbn [hops settled].
  destruct h as [|h].
  - rewrite decide_False by done. exact IH.
  - rewrite settles_in_cons. cbn [hops settled]. rewrite IH.
    destruct (decide (h = k)) as [->|Hne].
    + by rewrite decide_True.
    + by rewrite decide_False by congruence.
Qed.

(** The queue hands the messages over by settlement. *)
Lemma drain_by_rounds n q e :
  weight q ≤ n →
  errors (drain {| errors := e; microtasks := q |})
  = e ++ concat (map (fun k => settles_in k q) (seq 0 n)).
Proof.
  revert q e. induction n as [|n IH]; intros q e Hw.
  - destruct q as [|j q]; [|simpl in Hw; lia]. simpl. by rewrite app_nil_r.
  - rewrite drain_round, IH.
    + rewrite <- app_assoc. f_equal.
      change (seq 0 (S n)) with (0 :: seq 1 n). rewrite <- seq_shift.
      simpl. f_equal. rewrite map_map. f_equal.
      apply map_ext. intros k. apply settles_in_next.
    + pose proof (weight_round q). destruct q; simpl in *; lia.
Qed.

Lemma drain_by_settlement q :
  errors (drain {| errors := []; microtasks := q |}) = by_settlement q.
Proof. by rewrite (drain_by_rounds (weight q)). Qed.




End QueueFacts.

(** ** Validation passes *)
Section ValidationFacts.
Import Validation.

Lemma omap_after_map {A B C} (g : B → option C) (f : A → B) (l : list A) :
  omap g (map f l) = omap (fun a => g (f a)) l.
Proof.
  induction l as [|a l IH]; simpl; [done|].
  destruct (g (f a)); [f_equal|]; exact IH.
Qed.




(** A pass that starts on an empty queue: the list is cleared, [front] is
    what the pass appends before the task ends. *)
Lemma pass_errors front vs x st :
  microtasks st = [] →
  drain (concat_errors front (forEach_validators vs x (clear_errors st)))
  = {| errors := front ++ arrivals vs x; microtasks := [] |}.
Proof.
  intros Hq.
  pose proof (drain_empties
    (concat_errors front (forEach_validators vs x (clear_errors st)))) as He.
  destruct (drain _) as [e q] eqn:Hd. simpl in He. subst q. f_equal.
  change e with (errors {| errors := e; microtasks := [] |}).
  rewrite <- Hd. unfold concat_errors, forEach_validators, clear_errors. simpl.
  rewrite Hq. simpl. by rewrite drain_prefix.
Qed.

Lemma pass_errors_plain vs x st :
  microtasks st = [] →
  drain (forEach_validators vs x (clear_errors st))
  = {| errors := arrivals vs x; microtasks := [] |}.
Proof.
  intros Hq. change (arrivals vs x) with ([] ++ arrivals vs x).
  rewrite <- (pass_errors [] vs x st Hq). f_equal.
Qed.

Lemma textarea_pass config x st :
  microtasks st = [] →
  drain (Textarea.validate config x st)
  = {| errors := (if Textarea.required config && Textarea.blank x
                  then [required_message] else [])
                 ++ arrivals (Textarea.validators config) x;
       microtasks := [] |}.
Proof.
  intros Hq. unfold Textarea.validate.
  destruct (Textarea.required config && Textarea.blank x).
  - by apply pass_errors.
  - by apply pass_errors_plain.
Qed.

Lemma checkbox_pass config x st :
  microtasks st = [] →
  drain (Checkbox.validate config x st)
  = {| errors := (if Checkbox.required config && Checkbox.unset x
                  then [required_message] else [])
                 ++ arrivals (Checkbox.validators config) x;
       microtasks := [] |}.
Proof.
  intros Hq. unfold Checkbox.validate.
  destruct (Checkbox.required config && Checkbox.unset x).
  - by apply pass_errors.
  - by apply pass_errors_plain.
Qed.

Lemma toggle_pass config x st :
  microtasks st = [] →
  drain (Toggle.validate config x st)
  = {| errors := (if Checkbox.required config && Checkbox.unset x
                  then [required_message] else [])
                 ++ arrivals (Checkbox.validators config) x;
       microtasks := [] |}.
Proof.
  intros Hq. unfold Toggle.validate. fold (Checkbox.unset x).
  destruct (Checkbox.required config && Checkbox.unset x).
  - by apply pass_errors.
  - by apply pass_errors_plain.
Qed.

Lemma held_back_on_form config f w :
  Input.held_back config (Input.on_form f w) = Input.held_back config w.
Proof. done. Qed.

(** When the handlers of the three plain components start a pass: on an
    edit or click if the state is not bound to a signal, on a write to the
    signal if it is. *)
Lemma plain_component_events tconfig bconfig text c v st :
  Textarea.oninput tconfig text st
  = (if Textarea.value_is_signal tconfig then st
     else Textarea.validate tconfig (JString text) st)
  ∧ Textarea.on_signal tconfig v st
    = (if Textarea.value_is_signal tconfig then Textarea.validate tconfig v st else st)
  ∧ Checkbox.onclick bconfig c st
    = (if Checkbox.checked_is_signal bconfig then st
       else Checkbox.validate bconfig (JBool c) st)
  ∧ Checkbox.on_signal bconfig v st
    = (if Checkbox.checked_is_signal bconfig then Checkbox.validate bconfig v st else st)
  ∧ Toggle.onclick bconfig c st
    = (if Checkbox.checked_is_signal bconfig then st
       else Toggle.validate bconfig (JBool c) st)
  ∧ Toggle.on_signal bconfig v st
    = (if Checkbox.checked_is_signal bconfig then Toggle.validate bconfig v st else st).
Proof. done. Qed.

(** [checkbox] and [toggle] validate alike. *)
Lemma toggle_validate_checkbox config x st :
  Toggle.validate config x st = Checkbox.validate config x st.
Proof. done. Qed.

(** [input]: a pass that is not held back by the debounce guard. *)
Lemma input_pass config x w :
  microtasks (Input.form (Timers.user w)) = [] →
  Input.held_back config w = None →
  Input.form (Timers.user (Input.checkpoint (Input.validate config x w)))
  = {| errors := (if Input.required config && Input.blank x
                     && Input.touched (Timers.user w)
                  then [required_message] else [])
                 ++ arrivals (Input.validators config) x;
       microtasks := [] |}.
Proof.
  intros Hq Hg. unfold Input.validate. rewrite held_back_on_form, Hg.
  cbn [Input.on_form Input.set_user Timers.user Input.touched Input.form].
  destruct (Input.required config && Input.blank x
            && Input.touched (Timers.user w)); simpl.
  - by apply pass_errors.
  - by apply pass_errors_plain.
Qed.

(** [input]: a pass inside the debounce window clears the list, starts no
    validator and leaves [validate] to a timeout. *)
Lemma input_pass_held_back config x w delay :
  Input.held_back config w = Some delay →
  Input.form (Timers.user (Input.validate config x w))
  = clear_errors (Input.form (Timers.user w))
  ∧ last (Timers.pending (Input.validate config x w))
    = Some {| Timers.handle := Timers.nextHandle w;
              Timers.due := Timers.now w + delay;
              Timers.identifier := Input.inputId config +:+ "validate";
              Timers.func := Input.ValidateLater x |}.
Proof.
  intros Hg. unfold Input.validate. rewrite held_back_on_form, Hg.
  unfold DebounceTs.debounce_later.
  destruct (Timers.debounceMap _ !! _) as [h|]; simpl;
    (split; [done|]); by rewrite last_snoc.
Qed.

End ValidationFacts.

(** ** Claims on validation *)
Section ValidationClaims.
Import Validation.




(** With a validator that settles later the results do not arrive in
    validator order either. *)
Example arrivals_out_of_order :
  arrivals [Samples.slow_check; Samples.too_short] (JString "")
  = ["Too short."; "Checked late."]
  ∧ collected [Samples.slow_check; Samples.too_short] (JString "")
    = ["Checked late."; "Too short."].
Proof. split; reflexivity. Qed.

End ValidationClaims.

(** ** The touched flag of [input] *)
Section TouchedFacts.
Import Validation Timers.

Lemma touched_validate config x w :
  Input.touched (user (Input.validate config x w)) = Input.touched (user w).
Proof.
  unfold Input.validate. rewrite held_back_on_form.
  destruct (Input.held_back config w) as [d|].
  - unfold DebounceTs.debounce_later.
    by destruct (debounceMap _ !! _).
  - cbn [Input.on_form Input.set_user user Input.touched].
    by destruct (_ && _ && _).
Qed.

Lemma touched_call config c w :
  Input.touched (user (Input.call config c w)) = Input.touched (user w).
Proof.
  destruct c as [x| |]; simpl; [apply touched_validate | done |].
  unfold Input.write_value. destruct (Input.value_is_signal config); [|done].
  by rewrite touched_validate.
Qed.

Lemma touched_debounce config id c delay w :
  Input.touched (user (DebounceTs.debounce (Input.call config) id c delay w))
  = Input.touched (user w).
Proof.
  unfold DebounceTs.debounce. destruct (default 0 delay =? 0).
  - unfold invoke. by rewrite touched_call.
  - unfold DebounceTs.debounce_later. by destruct (debounceMap _ !! _).
Qed.

Lemma touched_fire config tm w :
  Input.touched (user (fire (Input.call config) tm w)) = Input.touched (user w).
Proof.
  unfold fire, callback, invoke. simpl. by rewrite touched_call.
Qed.

Lemma touched_oninput config text w :
  Input.touched (user (Input.oninput config text w)) = true.
Proof.
  unfold Input.oninput. rewrite touched_debounce.
  destruct (Input.has_onchange config); [rewrite touched_debounce|];
    (destruct (Input.value_is_signal config); [|rewrite touched_validate]); done.
Qed.

Lemma touched_checkpoint w :
  Input.touched (user (Input.checkpoint w)) = Input.touched (user w).
Proof. done. Qed.

Lemma touched_write_value config v w :
  Input.touched (user (Input.write_value config v w)) = Input.touched (user w).
Proof.
  unfold Input.write_value. destruct (Input.value_is_signal config); [|done].
  by rewrite touched_validate.
Qed.

Lemma touched_step config w ev :
  Input.touched (user (Input.step config w ev))
  = Input.is_edit ev || Input.touched (user w).
Proof.
  destruct ev as [t text|t v|t h]; cbn [Input.step Input.is_edit orb].
  - rewrite touched_checkpoint. apply touched_oninput.
  - destruct (Input.value_is_signal config); [|done].
    by rewrite touched_checkpoint, touched_write_value.
  - destruct (filter _ _) as [|tm ?]; [done|].
    destruct (due tm <=? t); [|done].
    by rewrite touched_checkpoint, touched_fire.
Qed.

(** The field is touched exactly when an edit has happened. *)
Lemma touched_after_run config t h evs :
  Input.touched (user (Input.run config t h evs)) = existsb Input.is_edit evs.
Proof.
  unfold Input.run.
  assert (Input.touched (user (Input.checkpoint (Input.input config t h))) = false) as H0.
  { rewrite touched_checkpoint. unfold Input.input.
    destruct (Input.value_is_signal config);
      cbn [Input.set_user user Input.touched]; by rewrite touched_validate. }
  revert H0. generalize (Input.checkpoint (Input.input config t h)).
  induction evs as [|ev evs IH] using rev_ind; intros w Hw; [done|].
  rewrite foldl_app. simpl. rewrite touched_step, (IH w Hw).
  rewrite existsb_app. simpl. rewrite orb_false_r. apply orb_comm.
Qed.

(** Between two tasks no validator callback is left waiting. *)
Lemma run_quiescent config t h evs :
  microtasks (Input.form (user (Input.run config t h evs))) = [].
Proof.
  unfold Input.run.
  assert (∀ w, microtasks (Input.form (user (Input.checkpoint w))) = []) as Hcp.
  { intros w. apply drain_empties. }
  induction evs as [|ev evs IH] using rev_ind; [apply Hcp|].
  rewrite foldl_app. cbn [foldl].
  destruct ev as [t' text|t' v|t' h']; cbn [Input.step].
  - apply Hcp.
  - destruct (Input.value_is_signal config); [apply Hcp | exact IH].
  - destruct (filter _ _) as [|tm ?]; [exact IH|].
    destruct (due tm <=? t'); [apply Hcp | exact IH].
Qed.

End TouchedFacts.

(** ** Claims on the required policy *)
Section RequiredClaims.
Import Validation Timers.

Lemma input_pass_deferred config x w delay :
  microtasks (Input.form (user w)) = [] →
  Input.held_back config w = Some delay →
  Input.form (user (Input.checkpoint (Input.validate config x w)))
  = {| errors := []; microtasks := [] |}.
Proof.
  intros Hq Hg.
  destruct (input_pass_held_back config x w delay Hg) as [Hf _].
  unfold Input.checkpoint. cbn [Input.on_form Input.set_user user Input.form].
  rewrite Hf. unfold clear_errors. rewrite Hq. reflexivity.
Qed.

Lemma input_form_at_construction config t h :
  Input.form (user (Input.checkpoint (Input.input config t h)))
  = Input.form (user (Input.checkpoint
                        (Input.validate config (Input.value config)
                           (Input.fresh config t h)))).
Proof. unfold Input.input. by destruct (Input.value_is_signal config). Qed.

(** C4.  With [required] set and an empty-like value, [input] adds the
    required-field message only once the field has been touched, that is
    once an edit has happened; the validation at construction never adds
    it.  [textarea], [checkbox] and [toggle] add it on every pass, the one
    at construction included.  The message stands in front of whatever
    the validators report. *)
Theorem required_policy
    (tconfig : Textarea.TextareaConfig) (bconfig : Checkbox.BooleanConfig)
    (iconfig : Input.InputConfig) (x y : JsValue) (st : Form)
    (w : Input.InputWorld) (t h : nat) (evs : list Input.Event) :
  Textarea.required tconfig = true →
  Checkbox.required bconfig = true →
  Input.required iconfig = true →
  Textarea.blank x = true →
  Checkbox.unset y = true →
  microtasks st = [] →
  microtasks (Input.form (user w)) = [] →
  let after_input w' :=
    errors (Input.form (user (Input.checkpoint (Input.validate iconfig x w')))) in
  (Input.touched (user (Input.run iconfig t h evs)) = existsb Input.is_edit evs
   ∧ (Input.touched (user w) = false →
      after_input w = match Input.held_back iconfig w with
                      | Some _ => []
                      | None => arrivals (Input.validators iconfig) x
                      end)
   ∧ (Input.touched (user w) = true → Input.held_back iconfig w = None →
      after_input w = required_message :: arrivals (Input.validators iconfig) x)
   ∧ (Input.value iconfig = x →
      errors (Input.form (user (Input.checkpoint (Input.input iconfig t h))))
      = match Input.held_back iconfig (Input.fresh iconfig t h) with
        | Some _ => []
        | None => arrivals (Input.validators iconfig) x
        end))
  ∧ (errors (drain (Textarea.validate tconfig x st))
     = required_message :: arrivals (Textarea.validators tconfig) x
     ∧ (Textarea.value tconfig = x →
        errors (drain (Textarea.textarea tconfig))
        = required_message :: arrivals (Textarea.validators tconfig) x))
  ∧ (errors (drain (Checkbox.validate bconfig y st))
     = required_message :: arrivals (Checkbox.validators bconfig) y
     ∧ (Checkbox.checked bconfig = y →
        errors (drain (Checkbox.checkbox bconfig))
        = required_message :: arrivals (Checkbox.validators bconfig) y))
  ∧ (errors (drain (Toggle.validate bconfig y st))
     = required_message :: arrivals (Checkbox.validators bconfig) y
     ∧ (Checkbox.checked bconfig = y →
        errors (drain (Toggle.toggle bconfig))
        = required_message :: arrivals (Checkbox.validators bconfig) y)).
Proof.
  intros Ht Hb Hi Hx Hy Hst Hw after_input. subst after_input.
  assert (Input.blank x = true) as Hx' by exact Hx.
  repeat split.
  - apply touched_after_run.
  - intros Hu. destruct (Input.held_back iconfig w) as [d|] eqn:Hg.
    + by rewrite (input_pass_deferred _ _ _ d Hw Hg).
    + rewrite (input_pass _ _ _ Hw Hg). simpl. by rewrite Hi, Hx', Hu.
  - intros Hu Hg. rewrite (input_pass _ _ _ Hw Hg). simpl. by rewrite Hi, Hx', Hu.
  - intros Hv. rewrite input_form_at_construction, Hv.
    destruct (Input.held_back iconfig _) as [d|] eqn:Hg.
    + by rewrite (input_pass_deferred _ _ (Input.fresh iconfig t h) d eq_refl Hg).
    + rewrite (input_pass _ _ (Input.fresh iconfig t h) eq_refl Hg).
      simpl. by rewrite andb_false_r.
  - rewrite (textarea_pass _ _ _ Hst). simpl. by rewrite Ht, Hx.
  - intros Hv. unfold Textarea.textarea. rewrite Hv.
    rewrite textarea_pass by done. simpl. by rewrite Ht, Hx.
  - rewrite (checkbox_pass _ _ _ Hst). simpl. by rewrite Hb, Hy.
  - intros Hv. unfold Checkbox.checkbox. rewrite Hv.
    rewrite checkbox_pass by done. simpl. by rewrite Hb, Hy.
  - rewrite (toggle_pass _ _ _ Hst). simpl. by rewrite Hb, Hy.
  - intros Hv. unfold Toggle.toggle. rewrite Hv.
    rewrite toggle_pass by done. simpl. by rewrite Hb, Hy.
Qed.

Lemma required_policy_witness :
  errors (Input.form (user (Input.checkpoint
            (Input.validate Samples.username (JString "") Samples.untouched))))
  = ["Too short."]
  ∧ errors (Input.form (user (Input.checkpoint
              (Input.validate Samples.username (JString "") Samples.edited))))
    = [required_message; "Too short."]
  ∧ errors (drain (Textarea.textarea Samples.notes)) = [required_message; "Too short."]
  ∧ errors (drain (Checkbox.checkbox Samples.terms)) = [required_message]
  ∧ errors (drain (Toggle.toggle Samples.terms)) = [required_message].
Proof.
  pose proof (required_policy Samples.notes Samples.terms Samples.username
                (JString "") (JBool false) Samples.stale Samples.edited 2000 1 []
                eq_refl eq_refl eq_refl eq_refl eq_refl eq_refl eq_refl) as H.
  pose proof (required_policy Samples.notes Samples.terms Samples.username
                (JString "") (JBool false) Samples.stale Samples.untouched 2000 1 []
                eq_refl eq_refl eq_refl eq_refl eq_refl eq_refl eq_refl) as H'.
  cbv zeta in H, H'.
  destruct H as ((_ & _ & Hi & _) & (_ & Ht) & (_ & Hc) & (_ & Hg)).
  destruct H' as ((_ & Hu & _) & _).
  split; [exact (Hu eq_refl)|].
  split; [exact (Hi eq_refl eq_refl)|].
  split; [exact (Ht eq_refl)|].
  split; [exact (Hc eq_refl) | exact (Hg eq_refl)].
Defined.

(** C5.  A required checkbox without validators: validating [false]
    leaves exactly the required-field message, validating [true] leaves
    no message; so it is at construction and after a click. *)
Theorem checkbox_required (config : Checkbox.BooleanConfig) (st : Form) :
  Checkbox.required config = true →
  Checkbox.validators config = [] →
  microtasks st = [] →
  drain (Checkbox.validate config (JBool false) st)
  = {| errors := [required_message]; microtasks := [] |}
  ∧ drain (Checkbox.validate config (JBool true) st)
    = {| errors := []; microtasks := [] |}
  ∧ (Checkbox.checked config = JBool false →
     errors (drain (Checkbox.checkbox config)) = [required_message])
  ∧ (Checkbox.checked config = JBool true →
     errors (drain (Checkbox.checkbox config)) = [])
  ∧ (Checkbox.checked_is_signal config = false →
     errors (drain (Checkbox.onclick config false st)) = [required_message]
     ∧ errors (drain (Checkbox.onclick config true st)) = []).
Proof.
  intros Hr Hv Hst.
  assert (forall c st', microtasks st' = [] →
            drain (Checkbox.validate config (JBool c) st')
            = {| errors := if c then [] else [required_message];
                 microtasks := [] |}) as Hpass.
  { intros c st' Hq. rewrite (checkbox_pass _ _ _ Hq), Hr, Hv.
    by destruct c. }
  split; [by rewrite Hpass|]. split; [by rewrite Hpass|].
  unfold Checkbox.checkbox, Checkbox.onclick.
  split; [intros ->; by rewrite Hpass|].
  split; [intros ->; by rewrite Hpass|].
  intros ->. by rewrite !Hpass.
Qed.

Lemma checkbox_required_witness :
  errors (drain (Checkbox.validate Samples.terms (JBool false) Samples.stale))
  = [required_message]
  ∧ errors (drain (Checkbox.validate Samples.terms (JBool true) Samples.stale)) = [].
Proof.
  destruct (checkbox_required Samples.terms Samples.stale eq_refl eq_refl eq_refl)
    as (H1 & H2 & _).
  split; [by rewrite H1 | by rewrite H2].
Defined.

End RequiredClaims.

(** ** Timers and the two debounce helpers *)
Section TimerFacts.
Import Timers.
Context {F U : Type}.
Implicit Types (w : World F U) (tm : Timer F) (l : list (Timer F)).

Lemma earliest_None l : earliest l = None → l = [].
Proof.
  destruct l as [|tm l]; [done|]. simpl.
  destruct (earliest l) as [tm'|]; [|done]. by destruct (due tm' <? due tm).
Qed.

Lemma earliest_Some l tm :
  earliest l = Some tm → tm ∈ l ∧ Forall (fun tm' => due tm ≤ due tm') l.
Proof.
  revert tm. induction l as [|tm0 l IH]; intros tm; [done|]. simpl.
  destruct (earliest l) as [tm'|] eqn:He.
  - destruct (IH tm' eq_refl) as [Hin Hmin].
    destruct (due tm' <? due tm0) eqn:Hlt; intros [= <-].
    + apply Nat.ltb_lt in Hlt. split; [by right|].
      constructor; [lia | done].
    + apply Nat.ltb_ge in Hlt. split; [by left|].
      constructor; [done|]. eapply Forall_impl; [exact Hmin|].
      simpl. intros. lia.
  - intros [= <-]. apply earliest_None in He. subst l.
    split; [by left | by constructor].
Qed.

Lemma NoDup_map_filter {A B} (f : A → B) (P : A → Prop) `{!∀ a, Decision (P a)}
    (l : list A) :
  NoDup (map f l) → NoDup (map f (filter P l)).
Proof.
  intros Hnd. refine (sublist_NoDup _ _ Hnd _).
  apply (fmap_sublist f). apply sublist_filter.
Qed.

Lemma filter_all {A} (P : A → Prop) `{!∀ a, Decision (P a)} (l : list A) :
  Forall P l → filter P l = l.
Proof.
  induction 1 as [|a l Ha _ IH]; [done|].
  rewrite filter_cons_True by done. by rewrite IH.
Qed.

(** Among well-formed timeouts the identifier names the timeout. *)
Lemma same_identifier l tm tm' :
  NoDup (map identifier l) → tm ∈ l → tm' ∈ l →
  identifier tm = identifier tm' → tm = tm'.
Proof.
  induction l as [|tm0 l IH]; intros Hnd H1 H2 Hid; [by inversion H1|].
  simpl in Hnd. apply NoDup_cons in Hnd as [Hnot Hnd].
  apply elem_of_cons in H1 as [->|H1]; apply elem_of_cons in H2 as [->|H2].
  - done.
  - exfalso. apply Hnot. rewrite Hid. apply list_elem_of_fmap. by exists tm'.
  - exfalso. apply Hnot. rewrite <- Hid. apply list_elem_of_fmap. by exists tm.
  - by apply IH.
Qed.

Lemma well_formed_handle_identifier w tm tm' :
  well_formed w → tm ∈ pending w → tm' ∈ pending w →
  handle tm = handle tm' ↔ identifier tm = identifier tm'.
Proof.
  intros (Hh & Hi & Hreg) H1 H2. split.
  - intros Heq. f_equal. clear Hi Hreg.
    induction (pending w) as [|tm0 l IH]; [by inversion H1|].
    simpl in Hh. apply NoDup_cons in Hh as [Hnot Hh].
    apply elem_of_cons in H1 as [->|H1]; apply elem_of_cons in H2 as [->|H2].
    + done.
    + exfalso. apply Hnot. rewrite Heq. apply list_elem_of_fmap. by exists tm'.
    + exfalso. apply Hnot. rewrite <- Heq. apply list_elem_of_fmap. by exists tm.
    + by apply IH.
  - intros Heq. by rewrite (same_identifier _ _ _ Hi H1 H2 Heq).
Qed.

End TimerFacts.

Section DebounceFacts.
Import Timers.
Context {F U : Type} (call : F → World F U → World F U).
Hypothesis call_frame : frame call.
Implicit Types (w : World F U) (tm : Timer F).

(** What a scheduling call of either helper does to the world. *)
Lemma debounce_alt_fields k f delay w :
  let w' := DebounceAlt.debounce k f delay w in
  now w' = now w ∧ nextHandle w' = S (nextHandle w) ∧ ran w' = ran w
  ∧ user w' = user w
  ∧ debounceMap w' = <[k := nextHandle w]> (debounceMap w)
  ∧ pending w' = kept k w ++ [armed k f (default 500 delay) w].
Proof.
  unfold DebounceAlt.debounce, kept, armed.
  destruct (debounceMap w !! k) as [h|] eqn:Hk; simpl; repeat split; f_equal.
  - apply list_filter_iff. intros tm. split; [congruence|].
    intros Hne Heq. apply Hne. by rewrite Heq.
  - symmetry. apply filter_all. apply Forall_forall. intros tm _. done.
Qed.

Lemma debounce_positive_agree k f d w :
  0 < d → DebounceTs.debounce call k f (Some d) w = DebounceAlt.debounce k f (Some d) w.
Proof.
  intros Hd. unfold DebounceTs.debounce, DebounceAlt.debounce,
    DebounceTs.debounce_later. simpl.
  destruct d as [|d]; [lia|]. done.
Qed.

Lemma kept_other k w tm :
  well_formed w → tm ∈ kept k w → tm ∈ pending w ∧ identifier tm ≠ k.
Proof.
  intros (_ & _ & Hreg) Hin. apply list_elem_of_filter in Hin as [Hne Hin].
  split; [done|]. intros <-.
  rewrite Forall_forall in Hreg. destruct (Hreg tm Hin) as [_ Hm]. congruence.
Qed.

Lemma debounce_alt_well_formed k f delay w :
  well_formed w → well_formed (DebounceAlt.debounce k f delay w).
Proof.
  intros Hwf.
  destruct (debounce_alt_fields k f delay w) as (_ & Hn & _ & _ & Hm & Hp).
  pose proof Hwf as (Hh & Hi & Hreg). rewrite Forall_forall in Hreg.
  unfold well_formed. rewrite Hn, Hm, Hp. rewrite !map_app. simpl.
  split; [|split].
  - apply NoDup_app. split; [by apply NoDup_map_filter|]. split; [|apply NoDup_singleton].
    intros h Hin ->%list_elem_of_singleton.
    apply list_elem_of_fmap in Hin as (tm & Heq & Hin).
    apply kept_other in Hin as [Hin _]; [|done].
    destruct (Hreg tm Hin) as [Hlt _]. lia.
  - apply NoDup_app. split; [by apply NoDup_map_filter|]. split; [|apply NoDup_singleton].
    intros k' Hin ->%list_elem_of_singleton.
    apply list_elem_of_fmap in Hin as (tm & Heq & Hin).
    apply kept_other in Hin as [_ Hne]; [|done]. done.
  - apply Forall_app. split.
    + apply Forall_forall. intros tm Hin.
      apply kept_other in Hin as [Hin Hne]; [|done].
      destruct (Hreg tm Hin) as [Hlt Hreg'].
      split; [lia|]. by rewrite lookup_insert_ne.
    + constructor; [|constructor]. simpl. split; [lia|]. by rewrite lookup_insert_eq.
Qed.

(** After a scheduling call the identifier has exactly the new timeout. *)
Lemma debounce_alt_mine k f delay w tm :
  well_formed w →
  tm ∈ pending (DebounceAlt.debounce k f delay w) → identifier tm = k →
  tm = armed k f (default 500 delay) w.
Proof.
  intros Hwf Hin Hid.
  destruct (debounce_alt_fields k f delay w) as (_ & _ & _ & _ & _ & Hp).
  rewrite Hp in Hin. apply elem_of_app in Hin as [Hin|Hin].
  - apply kept_other in Hin as [_ Hne]; done.
  - by apply list_elem_of_singleton in Hin.
Qed.

(** What a firing timeout does to the world. *)
Lemma fire_fields tm w :
  let w' := fire call tm w in
  now w' = now w `max` due tm ∧ nextHandle w' = nextHandle w
  ∧ pending w' = filter (fun tm' => handle tm' ≠ handle tm) (pending w)
  ∧ debounceMap w' = delete (identifier tm) (debounceMap w)
  ∧ ran w' = ran w ++ [(now w `max` due tm, identifier tm, func tm)].
Proof.
  unfold fire, callback, invoke, set_debounceMap. simpl.
  match goal with |- context [call ?f ?x] =>
    destruct (call_frame f x) as (H1 & H2 & H3 & H4 & H5) end.
  by rewrite H1, H2, H3, H4, H5.
Qed.

Lemma fire_well_formed tm w :
  well_formed w → tm ∈ pending w → well_formed (fire call tm w).
Proof.
  intros Hwf Hin.
  destruct (fire_fields tm w) as (_ & Hn & Hp & Hm & _).
  pose proof Hwf as (Hh & Hi & Hreg). rewrite Forall_forall in Hreg.
  unfold well_formed. rewrite Hn, Hp, Hm.
  split; [by apply NoDup_map_filter|]. split; [by apply NoDup_map_filter|].
  apply Forall_forall. intros tm' Hin'.
  apply list_elem_of_filter in Hin' as [Hne Hin'].
  destruct (Hreg tm' Hin') as [Hlt Hreg']. split; [done|].
  rewrite lookup_delete_ne; [done|]. intros Heq. apply Hne.
  by apply (well_formed_handle_identifier w tm' tm Hwf Hin' Hin).
Qed.

Lemma calls_of_snoc k w w' e :
  ran w' = ran w ++ [e] →
  calls_of k w' = calls_of k w ++ (if decide (e.1.2 = k) then [e] else []).
Proof.
  intros Hr. unfold calls_of. rewrite Hr, filter_app.
  f_equal.
Qed.

(** Timeouts of other identifiers come and go without a call under [k]. *)
Lemma run_due_other fuel T k w :
  well_formed w → (∀ tm, tm ∈ pending w → identifier tm ≠ k) →
  let w' := run_due call fuel T w in
  calls_of k w' = calls_of k w ∧ well_formed w'
  ∧ (∀ tm, tm ∈ pending w' → identifier tm ≠ k)
  ∧ nextHandle w' = nextHandle w ∧ now w ≤ now w' ≤ now w `max` T.
Proof.
  revert w. induction fuel as [|fuel IH]; intros w Hwf Hk; simpl.
  { split_and!; try done; try lia. }
  destruct (earliest (pending w)) as [tm0|] eqn:He;
    [|split_and!; try done; try lia].
  destruct (due tm0 <=? T) eqn:Hd; [|split_and!; try done; try lia].
  apply Nat.leb_le in Hd. apply earliest_Some in He as [Hin _].
  destruct (fire_fields tm0 w) as (Hn & Hh & Hp & _ & Hr).
  destruct (IH (fire call tm0 w)) as (Hc & Hwf' & Hk' & Hh' & Hn').
  - by apply fire_well_formed.
  - intros tm. rewrite Hp. intros [_ Htm]%list_elem_of_filter. by apply Hk.
  - rewrite Hc, Hh', Hh. rewrite Hn in Hn'.
    rewrite (calls_of_snoc k w _ _ Hr). simpl.
    rewrite decide_False by by apply Hk. rewrite app_nil_r.
    split_and!; try done; try lia.
Qed.

(** The timeout of [k] fires once when it is due, with the clock at its
    due time, and stays pending until then. *)
Lemma run_due_mine fuel T k w tm :
  well_formed w → tm ∈ pending w → identifier tm = k → now w ≤ due tm →
  length (pending w) ≤ fuel →
  let w' := run_due call fuel T w in
  well_formed w' ∧ nextHandle w' = nextHandle w ∧ now w ≤ now w' ≤ now w `max` T
  ∧ if decide (due tm ≤ T)
    then calls_of k w' = calls_of k w ++ [(due tm, k, func tm)]
         ∧ (∀ tm', tm' ∈ pending w' → identifier tm' ≠ k)
    else calls_of k w' = calls_of k w ∧ tm ∈ pending w'.
Proof.
  revert w. induction fuel as [|fuel IH]; intros w Hwf Hin Hid Hnow Hlen.
  { destruct (pending w); [by inversion Hin | simpl in Hlen; lia]. }
  simpl. destruct (earliest (pending w)) as [tm0|] eqn:He.
  2:{ apply earliest_None in He. rewrite He in Hin. by inversion Hin. }
  apply earliest_Some in He as [Hin0 Hmin].
  rewrite Forall_forall in Hmin. pose proof (Hmin tm Hin) as Hle.
  destruct (due tm0 <=? T) eqn:Hd.
  2:{ apply Nat.leb_gt in Hd. rewrite decide_False by lia.
      split_and!; try done; try lia. }
  apply Nat.leb_le in Hd.
  destruct (fire_fields tm0 w) as (Hn & Hh & Hp & _ & Hr).
  pose proof (fire_well_formed tm0 w Hwf Hin0) as Hwf1.
  destruct (decide (handle tm0 = handle tm)) as [Heq|Hne'].
  - (* the timeout of [k] itself fires *)
    assert (tm0 = tm) as ->.
    { destruct Hwf as (? & Hi & ?).
      apply (same_identifier (pending w)); [done..|].
      by apply (well_formed_handle_identifier w tm0 tm). }
    clear Heq.
    destruct (run_due_other fuel T k (fire call tm w) Hwf1)
      as (Hc & Hwf' & Hk' & Hh' & Hn').
    { intros tm'. rewrite Hp. intros [Hne Htm']%list_elem_of_filter Hid'.
      apply Hne. apply (well_formed_handle_identifier w tm' tm Hwf Htm' Hin).
      congruence. }
    rewrite decide_True by lia. rewrite Hc, Hh', Hh. rewrite Hn in Hn'.
    rewrite (calls_of_snoc k w _ _ Hr). simpl.
    rewrite decide_True by done. rewrite Hid.
    replace (now w `max` due tm) with (due tm) by lia.
    split_and!; try done; try lia.
  - (* another timeout fires first *)
    assert (tm0 ≠ tm) as Hne by congruence.
    assert (identifier tm0 ≠ k) as Hother.
    { intros Heq. apply Hne. destruct Hwf as (_ & Hi & _).
      apply (same_identifier (pending w)); [done..|congruence]. }
    assert (handle tm ≠ handle tm0) as Hhne.
    { intros Heq. apply Hother.
      rewrite <- Hid. symmetry.
      by apply (well_formed_handle_identifier w tm tm0 Hwf Hin Hin0). }
    destruct (IH (fire call tm0 w)) as (Hwf' & Hh' & Hn' & Hres).
    + done.
    + rewrite Hp. by apply list_elem_of_filter.
    + done.
    + rewrite Hn. lia.
    + rewrite Hp.
      pose proof (length_filter_lt (fun tm' => handle tm' ≠ handle tm0)
                    (pending w) tm0 Hin0) as Hlt.
      assert (length (filter (fun tm' => handle tm' ≠ handle tm0) (pending w))
              < length (pending w)) by (apply Hlt; by intros Hx).
      lia.
    + rewrite Hh', Hh. rewrite Hn in Hn'.
      rewrite (calls_of_snoc k w _ _ Hr) in Hres. simpl in Hres.
      rewrite (decide_False (P := identifier tm0 = k)) in Hres by done.
      rewrite app_nil_r in Hres.
      split_and!; try done; try lia.
Qed.

(** Well-formedness is kept by everything the helpers and the loop do, and
    holds when nothing is pending. *)
Lemma idle_well_formed w : pending w = [] → well_formed w.
Proof.
  intros Hp. unfold well_formed. rewrite Hp. simpl.
  split; [apply NoDup_nil_2|]. split; [apply NoDup_nil_2 | constructor].
Qed.

Lemma run_due_well_formed fuel T w :
  well_formed w → well_formed (run_due call fuel T w).
Proof.
  revert w. induction fuel as [|fuel IH]; intros w Hwf; simpl; [done|].
  destruct (earliest (pending w)) as [tm|] eqn:He; [|done].
  destruct (due tm <=? T); [|done].
  apply IH. apply fire_well_formed; [done|].
  by apply earliest_Some in He as [Hin _].
Qed.

(** The fuel of [advance] is enough: afterwards nothing due is pending. *)
Lemma run_due_complete fuel T w :
  well_formed w → length (pending w) ≤ fuel →
  Forall (fun tm => T < due tm) (pending (run_due call fuel T w)).
Proof.
  revert w. induction fuel as [|fuel IH]; intros w Hwf Hlen; simpl.
  { destruct (pending w); [constructor | simpl in Hlen; lia]. }
  destruct (earliest (pending w)) as [tm0|] eqn:He.
  2:{ apply earliest_None in He. rewrite He. constructor. }
  apply earliest_Some in He as [Hin Hmin].
  destruct (due tm0 <=? T) eqn:Hd.
  - apply IH; [by apply fire_well_formed|].
    destruct (fire_fields tm0 w) as (_ & _ & Hp & _). rewrite Hp.
    assert (length (filter (fun tm' => handle tm' ≠ handle tm0) (pending w))
            < length (pending w)) as Hlt.
    { apply (length_filter_lt _ _ tm0); [done|]. by intros Hx. }
    lia.
  - apply Nat.leb_gt in Hd. eapply Forall_impl; [exact Hmin|].
    simpl. intros tm Hle. lia.
Qed.

Lemma advance_complete T w :
  well_formed w → Forall (fun tm => T < due tm) (pending (advance call T w)).
Proof. intros Hwf. by apply (run_due_complete (length (pending w)) T w). Qed.

Lemma advance_well_formed T w : well_formed w → well_formed (advance call T w).
Proof.
  intros Hwf. pose proof (run_due_well_formed (length (pending w)) T w Hwf) as H.
  exact H.
Qed.

Lemma debounce_ts_well_formed k f delay w :
  well_formed w → well_formed (DebounceTs.debounce call k f delay w).
Proof.
  intros Hwf. destruct (decide (default 0 delay = 0)) as [Hz|Hnz].
  - unfold DebounceTs.debounce. rewrite Hz. simpl. unfold invoke.
    match goal with |- context [call f ?x] =>
      destruct (call_frame f x) as (_ & H2 & H3 & H4 & _) end.
    unfold well_formed. by rewrite H2, H3, H4.
  - destruct delay as [[|d]|]; [done| |done].
    rewrite debounce_positive_agree by lia. by apply debounce_alt_well_formed.
Qed.

Lemma advance_fields T w :
  let w1 := run_due call (length (pending w)) T w in
  let w' := advance call T w in
  now w' = now w1 `max` T ∧ nextHandle w' = nextHandle w1
  ∧ pending w' = pending w1 ∧ debounceMap w' = debounceMap w1
  ∧ ran w' = ran w1 ∧ user w' = user w1.
Proof. done. Qed.

End DebounceFacts.

(** ** Claims on debounce *)
Section DebounceClaims.
Import Timers.

Lemma well_formed_same_timers {F U} (w w' : World F U) :
  pending w' = pending w → nextHandle w' = nextHandle w →
  debounceMap w' = debounceMap w → well_formed w → well_formed w'.
Proof. unfold well_formed. by intros -> -> ->. Qed.

(** The second of two calls for one identifier, seen from a well-formed
    world, with the second helper. *)
Lemma debounce_alt_twice {F U} (call : F → World F U → World F U)
    (k : string) (f g : F) (d d2 t2 T : nat) (w0 : World F U) :
  frame call → well_formed w0 →
  0 < d → now w0 ≤ t2 → t2 < now w0 + d → t2 ≤ T →
  calls_of k (advance call T
                (DebounceAlt.debounce k g (Some d2)
                   (advance call t2 (DebounceAlt.debounce k f (Some d) w0))))
  = calls_of k w0 ++ (if decide (t2 + d2 ≤ T) then [(t2 + d2, k, g)] else []).
Proof.
  intros Hframe Hwf Hd Ht2 Hbefore HT.
  (* the first call *)
  set (w1 := DebounceAlt.debounce k f (Some d) w0).
  destruct (debounce_alt_fields k f (Some d) w0) as (Hn1 & _ & Hr1 & _ & _ & Hp1).
  fold w1 in Hn1, Hr1, Hp1. change (default 500 (Some d)) with d in Hp1.
  pose proof (debounce_alt_well_formed k f (Some d) w0 Hwf) as Hwf1. fold w1 in Hwf1.
  (* time passes, the first timeout is not yet due *)
  destruct (run_due_mine call Hframe (length (pending w1)) t2 k w1 (armed k f d w0))
    as (Hwf1' & Hh1' & Hn1' & Hres1).
  { done. } { rewrite Hp1. apply elem_of_app. right. by left. }
  { done. } { rewrite Hn1. simpl. lia. } { done. }
  rewrite decide_False in Hres1 by (simpl; lia). destruct Hres1 as [Hc1 Hin1].
  set (w1' := advance call t2 w1).
  assert (well_formed w1') as Hwf2 by (by apply (well_formed_same_timers _ _ eq_refl eq_refl eq_refl Hwf1')).
  assert (now w1' = t2) as Hnow.
  { destruct (advance_fields call t2 w1) as (Hna & _). fold w1' in Hna. lia. }
  assert (calls_of k w1' = calls_of k w0) as Hc0.
  { transitivity (calls_of k w1); [exact Hc1|]. unfold calls_of. by rewrite Hr1. }
  (* the second call *)
  set (w2 := DebounceAlt.debounce k g (Some d2) w1').
  destruct (debounce_alt_fields k g (Some d2) w1') as (Hn2 & _ & Hr2 & _ & _ & Hp2).
  fold w2 in Hn2, Hr2, Hp2. change (default 500 (Some d2)) with d2 in Hp2.
  pose proof (debounce_alt_well_formed k g (Some d2) w1' Hwf2) as Hwf3. fold w2 in Hwf3.
  (* time passes again *)
  destruct (run_due_mine call Hframe (length (pending w2)) T k w2 (armed k g d2 w1'))
    as (_ & _ & _ & Hres2).
  { done. } { rewrite Hp2. apply elem_of_app. right. by left. }
  { done. } { rewrite Hn2. simpl. lia. } { done. }
  change (due (armed k g d2 w1')) with (now w1' + d2) in Hres2.
  change (func (armed k g d2 w1')) with g in Hres2. rewrite Hnow in Hres2.
  assert (calls_of k w2 = calls_of k w0) as Hc2.
  { rewrite <- Hc0. unfold calls_of. by rewrite Hr2. }
  change (calls_of k (advance call T w2))
    with (calls_of k (run_due call (length (pending w2)) T w2)).
  destruct (decide (t2 + d2 ≤ T)).
  - destruct Hres2 as [-> _]. by rewrite Hc2.
  - destruct Hres2 as [-> _]. by rewrite Hc2, app_nil_r.
Qed.

(** Two calls under one identifier, as long as the debounced functions
    leave the timers alone and every pending timeout is the one the map
    records for its identifier.  A call of [debounce] under [k] with a
    positive delay [d], followed by a second call under [k] before [d] has
    elapsed: the function of the first call is never called, the function
    of the second call is called exactly once, when the full delay of the
    second call has passed since that call.  It holds for both helpers,
    whatever else is pending.  The input component does not meet the
    conditions: its [validate] debounces itself from inside the callback. *)
Lemma debounce_last_call_wins {F U} (call : F → World F U → World F U)
    (k : string) (f g : F) (d d2 t2 T : nat) (w0 : World F U) :
  frame call → well_formed w0 →
  0 < d → 0 < d2 → now w0 ≤ t2 → t2 < now w0 + d → t2 ≤ T →
  let twice (debounce : string → F → option nat → World F U → World F U) :=
    advance call T (debounce k g (Some d2) (advance call t2 (debounce k f (Some d) w0))) in
  let called := if decide (t2 + d2 ≤ T) then [(t2 + d2, k, g)] else [] in
  calls_of k (twice (DebounceTs.debounce call)) = calls_of k w0 ++ called
  ∧ calls_of k (twice DebounceAlt.debounce) = calls_of k w0 ++ called.
Proof.
  intros Hframe Hwf Hd Hd2 Ht2 Hbefore HT twice called. subst twice called.
  cbv beta. rewrite !debounce_positive_agree by done.
  split; by apply debounce_alt_twice.
Qed.

Lemma say_frame : frame Samples.say.
Proof. intros f w. done. Qed.

Lemma busy_well_formed : well_formed Samples.busy.
Proof.
  split; [|split]; simpl.
  - apply NoDup_singleton.
  - apply NoDup_singleton.
  - constructor; [|constructor]. simpl. split; [lia | done].
Qed.

Lemma debounce_last_call_wins_witness :
  calls_of "search"
    (advance Samples.say 1200
       (DebounceTs.debounce Samples.say "search" "second" (Some 100)
          (advance Samples.say 1060
             (DebounceTs.debounce Samples.say "search" "first" (Some 100)
                Samples.busy))))
  = [(1160, "search", "second")].
Proof.
  destruct (debounce_last_call_wins Samples.say "search" "first" "second"
              100 100 1060 1200 Samples.busy say_frame busy_well_formed)
    as [H _]; [simpl; lia..|].
  exact H.
Defined.

(** C3.  The helper of [Debounce.ts] calls the function at once when the
    delay is [0] or absent, and then creates no timeout.  The second helper
    takes 500 for an absent delay and never calls the function itself:
    every call only arms a timeout.  With a positive explicit delay the two
    do the same. *)
Theorem debounce_variants {F U} (call : F → World F U → World F U)
    (k : string) (f : F) (w : World F U) :
  (DebounceTs.debounce call k f None w = invoke call k f w
   ∧ DebounceTs.debounce call k f (Some 0) w = invoke call k f w
   ∧ (frame call → ∀ delay, default 0 delay = 0 →
      let w' := DebounceTs.debounce call k f delay w in
      ran w' = ran w ++ [(now w, k, f)] ∧ pending w' = pending w
      ∧ debounceMap w' = debounceMap w))
  ∧ (DebounceAlt.debounce k f None w = DebounceAlt.debounce k f (Some 500) w
     ∧ ∀ delay,
         let w' := DebounceAlt.debounce k f delay w in
         ran w' = ran w ∧ user w' = user w
         ∧ pending w' = kept k w ++ [armed k f (default 500 delay) w])
  ∧ (∀ d, 0 < d →
       DebounceTs.debounce call k f (Some d) w = DebounceAlt.debounce k f (Some d) w).
Proof.
  split; [|split].
  - split; [done|]. split; [done|]. intros Hframe delay Hz.
    unfold DebounceTs.debounce. rewrite Hz. simpl. unfold invoke.
    match goal with |- context [call f ?x] =>
      destruct (Hframe f x) as (_ & _ & H3 & H4 & H5) end.
    by rewrite H3, H4, H5.
  - split; [done|]. intros delay.
    destruct (debounce_alt_fields k f delay w) as (_ & _ & Hr & Hu & _ & Hp).
    done.
  - intros d Hd. by apply debounce_positive_agree.
Qed.

Lemma debounce_variants_witness :
  user (DebounceTs.debounce Samples.say "search" "now" None Samples.busy) = ["now"]
  ∧ user (DebounceAlt.debounce "search" "now" None Samples.busy) = []
  ∧ DebounceTs.debounce Samples.say "search" "later" (Some 100) Samples.busy
    = DebounceAlt.debounce "search" "later" (Some 100) Samples.busy.
Proof.
  destruct (debounce_variants Samples.say "search" "now" Samples.busy)
    as ((H1 & _) & (_ & H2) & _).
  destruct (debounce_variants Samples.say "search" "later" Samples.busy)
    as (_ & _ & H3).
  split; [by rewrite H1|]. split; [by destruct (H2 None) as (_ & -> & _)|].
  apply H3. lia.
Defined.

End DebounceClaims.

(** ** The searchable select *)
Section SelectFacts.
Import SearchableSelect.
Open Scope Z_scope.

Lemma findIndex_range {A} (p : A → bool) (l : list A) :
  -1 ≤ findIndex p l < Z.of_nat (length l).
Proof.
  induction l as [|x l IH]; simpl; [lia|].
  destruct (p x); [lia|].
  destruct (findIndex p l =? -1) eqn:He; lia.
Qed.

Lemma findIndex_none {A} (p : A → bool) (l : list A) :
  findIndex p l = -1 ↔ Forall (fun x => p x = false) l.
Proof.
  induction l as [|x l IH]; simpl; [by split|].
  destruct (p x) eqn:Hp.
  - split; [lia|]. intros Hall. inversion Hall; congruence.
  - pose proof (findIndex_range p l).
    destruct (findIndex p l =? -1) eqn:He.
    + apply Z.eqb_eq in He. split; [|done]. intros _.
      constructor; [done|]. by apply IH.
    + apply Z.eqb_neq in He. split; [lia|].
      intros Hall. inversion Hall; subst. exfalso. apply He. by apply IH.
Qed.

(** [findIndex] answers the position of the first element that passes. *)
Lemma findIndex_first {A} (p : A → bool) (l : list A) :
  findIndex p l ≠ -1 →
  ∃ (k : nat) x, findIndex p l = Z.of_nat k ∧ l !! k = Some x ∧ p x = true
                 ∧ ∀ (j : nat) y, (j < k)%nat → l !! j = Some y → p y = false.
Proof.
  induction l as [|x l IH]; simpl; [done|].
  destruct (p x) eqn:Hp.
  - intros _. exists 0%nat, x. repeat split; [done|]. intros j y Hj. lia.
  - destruct (findIndex p l =? -1) eqn:He; [done|]. apply Z.eqb_neq in He.
    intros _. destruct (IH He) as (k & y & Hk & Hl & Hy & Hbefore).
    exists (S k), y. repeat split; [lia|done|done|].
    intros [|j] z Hj Hz; simpl in Hz; [congruence|].
    apply (Hbefore j); [lia | done].
Qed.

Lemma filter_fields s :
  options (filter s) = options s ∧ value (filter s) = value s
  ∧ search (filter s) = search s ∧ optionsVisible (filter s) = optionsVisible s
  ∧ filtered (filter s) = filtered s
  ∧ selectedIndex (filter s) = Finite (findIndex (matches (search s)) (options s)).
Proof. done. Qed.

Lemma write_search_fields text s :
  options (write_search text s) = options s ∧ value (write_search text s) = value s
  ∧ search (write_search text s) = text
  ∧ optionsVisible (write_search text s) = optionsVisible s
  ∧ filtered (write_search text s) = filtered s
  ∧ selectedIndex (write_search text s)
    = Finite (findIndex (matches text) (options s)).
Proof. done. Qed.

Lemma write_value_fields v s :
  options (write_value v s) = options s ∧ value (write_value v s) = v
  ∧ search (write_value v s) = label_of (options s) v
  ∧ optionsVisible (write_value v s) = optionsVisible s
  ∧ filtered (write_value v s) = filtered s
  ∧ selectedIndex (write_value v s)
    = Finite (findIndex (matches (label_of (options s) v)) (options s)).
Proof. done. Qed.

Lemma strict_eq_true a b : strict_eq a b = true ↔ a = b.
Proof. unfold strict_eq. apply bool_decide_eq_true. Qed.

Lemma label_of_first l1 o l2 v :
  id o = v → Forall (fun o' => id o' ≠ v) l1 →
  label_of (l1 ++ o :: l2) v = name o.
Proof.
  intros Ho Hl1. unfold label_of.
  induction Hl1 as [|o' l1 Hne _ IH]; simpl.
  - assert (strict_eq (id o) v = true) as -> by by apply strict_eq_true. done.
  - destruct (strict_eq (id o') v) eqn:He; [|done].
    by apply strict_eq_true in He.
Qed.

Lemma label_of_none os v :
  Forall (fun o => id o ≠ v) os → label_of os v = "".
Proof.
  unfold label_of. induction 1 as [|o os Hne _ IH]; simpl; [done|].
  destruct (strict_eq (id o) v) eqn:He; [|done].
  by apply strict_eq_true in He.
Qed.

(** What never changes after construction, and what the highlight index
    can be. *)
Lemma step_invariant s ev :
  filtered s ≠ [] →
  (∃ i, selectedIndex s = Finite i ∧ -1 ≤ i) →
  filtered (step s ev) = filtered s
  ∧ ∃ i, selectedIndex (step s ev) = Finite i ∧ -1 ≤ i.
Proof.
  intros Hne (i & Hi & Hle).
  assert (∀ p (l : list SelectOption), ∃ i', Finite (findIndex p l) = Finite i' ∧ -1 ≤ i')
    as Hfind.
  { intros p l. exists (findIndex p l). split; [done|]. apply findIndex_range. }
  assert (Z.of_nat (length (filtered s)) ≠ 0) as Hn.
  { destruct (filtered s); [done | simpl; lia]. }
  destruct ev as [|key|text| |k|v|os]; simpl.
  - split; [done|]. by exists i.
  - destruct key; simpl; try (split; [done|]); try by exists i.
    + apply Hfind.
    + rewrite Hi. simpl. apply Z.eqb_neq in Hn. rewrite Hn.
      eexists. split; [done|].
      pose proof (Z.rem_nonneg (i + 1) (Z.of_nat (length (filtered s)))).
      apply Z.eqb_neq in Hn. lia.
    + rewrite Hi. simpl. apply Z.eqb_neq in Hn. rewrite Hn.
      eexists. split; [done|]. apply Z.eqb_neq in Hn.
      destruct (decide (0 ≤ i + -1 + Z.of_nat (length (filtered s)))) as [Hpos|Hneg].
      * pose proof (Z.rem_nonneg _ (Z.of_nat (length (filtered s))) Hn Hpos). lia.
      * assert (Z.of_nat (length (filtered s)) = 1) as -> by lia.
        rewrite Z.rem_1_r. lia.
  - split; [done|]. apply Hfind.
  - split; [done|]. by exists i.
  - destruct (optionsVisible s); [|split; [done|]; by exists i].
    destruct (filtered s !! k); [|split; [done|]; by exists i].
    split; [done|]. apply Hfind.
  - split; [done|]. apply Hfind.
  - split; [done|]. apply Hfind.
Qed.

Lemma run_invariant os v evs :
  os ≠ [] →
  filtered (run os v evs) = os
  ∧ ∃ i, selectedIndex (run os v evs) = Finite i ∧ -1 ≤ i.
Proof.
  intros Hne. unfold run.
  induction evs as [|ev evs IH] using rev_ind.
  - simpl. split; [done|]. eexists. split; [done|]. apply findIndex_range.
  - rewrite foldl_app. simpl. destruct IH as [Hf Hi].
    destruct (step_invariant (foldl step (searchableSelect os v) evs) ev)
      as [Hf' Hi']; [by rewrite Hf | done |].
    split; [by rewrite Hf', Hf | done].
Qed.

End SelectFacts.

(** ** Claims on the searchable select *)
Section SelectClaims.
Import SearchableSelect.
Open Scope Z_scope.

(** C6.  In an instance created with a non-empty option list, whatever
    happened since, ArrowDown moves the highlight from [i] to
    [(i + 1) mod n] and ArrowUp to [(i - 1 + n) mod n], [n] being the length
    of the filtered list.  With the options A, B, C the highlight starts
    at 0, two ArrowDown presses lead to 2 and a third back to 0. *)
Theorem arrow_keys_cycle (os : list SelectOption) (v : JsValue) (evs : list Event) :
  os ≠ [] →
  let s := run os v evs in
  let n := Z.of_nat (length (filtered s)) in
  (∃ i, selectedIndex s = Finite i
        ∧ selectedIndex (onkeydown ArrowDown s) = Finite ((i + 1) mod n)
        ∧ selectedIndex (onkeydown ArrowUp s) = Finite ((i - 1 + n) mod n))
  ∧ (let abc := [Samples.optA; Samples.optB; Samples.optC] in
     let down := KeyDown ArrowDown in
     selectedIndex (run abc JNull []) = Finite 0
     ∧ selectedIndex (run abc JNull [down; down]) = Finite 2
     ∧ selectedId (run abc JNull [down; down]) = id Samples.optC
     ∧ selectedIndex (run abc JNull [down; down; down]) = Finite 0).
Proof.
  intros Hne s n. split; [|by repeat split].
  destruct (run_invariant os v evs Hne) as [Hf (i & Hi & Hle)].
  fold s in Hf, Hi. exists i. split; [done|].
  assert (0 < n) as Hn.
  { subst n. rewrite Hf. destruct os; [done | simpl; lia]. }
  assert ((n =? 0) = false) as Hnz by (apply Z.eqb_neq; lia).
  split; simpl; rewrite Hi; simpl; fold n; rewrite Hnz; f_equal.
  - apply Z.rem_mod_nonneg; lia.
  - replace (i + -1 + n) with (i - 1 + n) by lia.
    destruct (decide (0 ≤ i - 1 + n)) as [Hpos|Hneg].
    + apply Z.rem_mod_nonneg; lia.
    + assert (n = 1) as -> by lia. by rewrite Z.rem_1_r, Z.mod_1_r.
Qed.

Lemma arrow_keys_cycle_witness :
  selectedIndex (run [Samples.optA; Samples.optB] (JNumber 2) []) = Finite 1
  ∧ selectedIndex (onkeydown ArrowDown (run [Samples.optA; Samples.optB] (JNumber 2) []))
    = Finite 0
  ∧ selectedIndex (onkeydown ArrowUp (run [Samples.optA; Samples.optB] (JNumber 2) []))
    = Finite 0.
Proof.
  destruct (arrow_keys_cycle [Samples.optA; Samples.optB] (JNumber 2) [])
    as [(i & Hi & Hd & Hu) _]; [done|].
  assert (i = 1) as -> by (vm_compute in Hi; congruence).
  split; [exact Hi|]. split; [exact Hd | exact Hu].
Defined.

(** A click on an option commits it, whatever its id. *)
Lemma commit_by_click option s :
  let s' := onclick option s in
  value s' = id option ∧ search s' = name option ∧ optionsVisible s' = false.
Proof. done. Qed.

(** Enter commits the highlighted option when its id is neither [null]
    nor [undefined]. *)
Lemma commit_by_enter option s :
  at_index (filtered s) (selectedIndex s) = Some option →
  nullish (id option) = false →
  let s' := onkeydown Enter s in
  value s' = id option ∧ search s' = name option ∧ optionsVisible s' = false.
Proof.
  intros Hsel Hid. simpl. rewrite Hsel. unfold nullish_or. by rewrite Hid.
Qed.

(** The example of C7, by click and by Enter. *)
Example commit_example :
  let s := run [Samples.optA; Samples.optB] JNull [Focus] in
  (let s' := step s (OptionClick 1) in
   value s' = JNumber 2 ∧ search s' = "B" ∧ optionsVisible s' = false)
  ∧ (let s' := foldl step s [KeyDown ArrowDown; KeyDown Enter] in
     value s' = JNumber 2 ∧ search s' = "B" ∧ optionsVisible s' = false).
Proof. by repeat split. Qed.

(** C7 on an option whose id is [null]: a click sets the value to that id,
    Enter on the same highlighted option leaves the value at 2 while the
    text shows the option's name. *)
Theorem enter_skips_nullish_id :
  let s := run [Samples.optNone; Samples.optB] (JNumber 2) [Focus; KeyDown ArrowUp] in
  at_index (filtered s) (selectedIndex s) = Some Samples.optNone
  ∧ value (onclick Samples.optNone s) = JNull
  ∧ value (onkeydown Enter s) = JNumber 2
  ∧ search (onkeydown Enter s) = "None"
  ∧ optionsVisible (onkeydown Enter s) = false.
Proof. by repeat split. Qed.

(** C8.  A write of [v] to the value signal sets the search text to the
    name of the first option of the current list whose id is [v], and to
    the empty text when there is none. *)
Theorem value_write_resyncs_search (s : State) (v : JsValue) :
  let s' := write_value v s in
  value s' = v ∧ options s' = options s
  ∧ search s' = label_of (options s) v
  ∧ (∀ l1 o l2, options s = l1 ++ o :: l2 → id o = v →
       Forall (fun o' => id o' ≠ v) l1 → search s' = name o)
  ∧ (Forall (fun o => id o ≠ v) (options s) → search s' = "").
Proof.
  destruct (write_value_fields v s) as (Ho & Hv & Hs & _).
  simpl. repeat split.
  - intros l1 o l2 Hos Hid Hl1.
    change (label_of (options s) v = name o). rewrite Hos.
    by apply label_of_first.
  - intros Hall. change (label_of (options s) v = ""). by apply label_of_none.
Qed.

Lemma value_write_resyncs_search_witness :
  search (write_value (JNumber 2) (run [Samples.optA; Samples.optB] JNull [])) = "B"
  ∧ search (write_value (JNumber 7) (run [Samples.optA; Samples.optB] JNull [])) = "".
Proof.
  split.
  - destruct (value_write_resyncs_search
                (run [Samples.optA; Samples.optB] JNull []) (JNumber 2))
      as (_ & _ & _ & H & _).
    apply (H [Samples.optA] Samples.optB []); [done | done |].
    constructor; [discriminate | constructor].
  - destruct (value_write_resyncs_search
                (run [Samples.optA; Samples.optB] JNull []) (JNumber 7))
      as (_ & _ & _ & _ & H).
    apply H. repeat constructor; discriminate.
Defined.

(** What Enter does with no option at the highlighted index: the value
    signal is rewritten with the value it has, that write sets the search
    text to the name of the option whose id is the value, or to the empty
    text when there is none, and the dropdown closes. *)
Lemma enter_without_option (s : State) :
  at_index (filtered s) (selectedIndex s) = None →
  let s' := onkeydown Enter s in
  value s' = value s
  ∧ search s' = label_of (options s) (value s)
  ∧ optionsVisible s' = false
  ∧ options s' = options s ∧ filtered s' = filtered s.
Proof.
  intros Hsel. simpl. rewrite Hsel. unfold nullish_or. simpl. done.
Qed.

Lemma enter_without_option_witness :
  let s := run [Samples.optA; Samples.optB] (JNumber 1) [Focus; Typed "zz"] in
  at_index (filtered s) (selectedIndex s) = None
  ∧ value (onkeydown Enter s) = JNumber 1
  ∧ search (onkeydown Enter s) = "A"
  ∧ optionsVisible (onkeydown Enter s) = false.
Proof.
  split; [reflexivity|].
  destruct (enter_without_option
              (run [Samples.optA; Samples.optB] (JNumber 1) [Focus; Typed "zz"])
              eq_refl) as (Hv & Hs & Hvis & _).
  split; [exact Hv|]. split; [exact Hs | exact Hvis].
Defined.

(** C9.  After "zz" has been typed into a select whose value is 1, the id
    of option A, no option is highlighted.  Enter then keeps the value and
    closes the dropdown, but the search text does not keep its value:
    [value.value = selectedOption?.id ?? value.value] writes the value
    signal, the subscriber of the value sets the search text to the label
    of the value, and only then is [search.value] read for
    [selectedOption?.name ?? search.value].  "zz" has become "A".  Escape
    and Tab, which close the dropdown without committing as well, leave the
    text as it is. *)
Theorem enter_without_option_resets_search :
  let s := run [Samples.optA; Samples.optB] (JNumber 1) [Focus; Typed "zz"] in
  at_index (filtered s) (selectedIndex s) = None
  ∧ search s = "zz"
  ∧ value (onkeydown Enter s) = value s
  ∧ optionsVisible (onkeydown Enter s) = false
  ∧ search (onkeydown Enter s) = "A"
  ∧ search (onkeydown Escape s) = "zz"
  ∧ search (onkeydown Tab s) = "zz".
Proof. cbv zeta. split_and!; reflexivity. Qed.

(** C10.  A filter step whose search text is in no option's name, case
    ignored, sets the highlight index to -1, which is no index of the
    filtered list, and the highlighted id to [undefined].  Any other filter
    step sets the index to the position of the first option whose name
    contains the text. *)
Theorem filter_selects_first_match (s : State) :
  (Forall (fun o => matches (search s) o = false) (options s) →
   selectedIndex (filter s) = Finite (-1)
   ∧ at_index (filtered s) (Finite (-1)) = None
   ∧ selectedId (filter s) = JUndefined)
  ∧ (¬ Forall (fun o => matches (search s) o = false) (options s) →
     ∃ (k : nat) o,
       selectedIndex (filter s) = Finite (Z.of_nat k)
       ∧ options s !! k = Some o ∧ matches (search s) o = true
       ∧ ∀ (j : nat) o', (j < k)%nat → options s !! j = Some o' →
           matches (search s) o' = false).
Proof.
  split.
  - intros Hnone. apply findIndex_none in Hnone.
    unfold filter, write_selectedIndex, updateSelectedId. simpl.
    rewrite Hnone. done.
  - intros Hsome.
    destruct (findIndex_first (matches (search s)) (options s))
      as (k & o & Hk & Hl & Ho & Hbefore).
    { intros Heq. apply Hsome. by apply findIndex_none. }
    exists k, o. repeat split; [|done..].
    unfold filter, write_selectedIndex, updateSelectedId. simpl. by rewrite Hk.
Qed.

Lemma filter_selects_first_match_witness :
  (let s := commit_text "zz" (run [Samples.optA; Samples.optB] JNull []) in
   selectedIndex (filter s) = Finite (-1) ∧ selectedId (filter s) = JUndefined)
  ∧ (let s := commit_text "b" (run [Samples.optA; Samples.optB] JNull []) in
     selectedIndex (filter s) = Finite 1).
Proof.
  split.
  - destruct (filter_selects_first_match
                (commit_text "zz" (run [Samples.optA; Samples.optB] JNull [])))
      as [H _].
    destruct H as (H1 & _ & H2); [by repeat constructor|]. by split.
  - destruct (filter_selects_first_match
                (commit_text "b" (run [Samples.optA; Samples.optB] JNull [])))
      as [_ H].
    destruct H as (k & o & Hk & Hl & _).
    { intros Hall. inversion Hall as [|? ? _ Hall']. inversion Hall'. discriminate. }
    assert (k = 1%nat) as ->.
    { destruct k as [|[|k]]; [|done|]; vm_compute in Hl; discriminate. }
    exact Hk.
Defined.

End SelectClaims.


(** * Further properties *)

(** ** The debounce helpers over longer runs *)
Section DebounceRunFacts.
Import Timers DebounceRuns.
Context {F U : Type} (call : F → World F U → World F U).
Hypothesis call_frame : frame call.
Implicit Types (w : World F U) (tm : Timer F).

Lemma debounce_alt_tight k f delay w :
  well_formed w → tight w → tight (DebounceAlt.debounce k f delay w).
Proof.
  intros Hwf Ht k' h' Hl.
  destruct (debounce_alt_fields k f delay w) as (_ & _ & _ & _ & Hm & Hp).
  rewrite Hm in Hl. rewrite Hp.
  destruct (decide (k = k')) as [<-|Hne].
  - rewrite lookup_insert_eq in Hl. injection Hl as <-.
    exists (armed k f (default 500 delay) w).
    split; [|done]. apply elem_of_app. right. by left.
  - rewrite lookup_insert_ne in Hl by done.
    destruct (Ht k' h' Hl) as (tm & Hin & Hid & Hh).
    exists tm. split; [|done]. apply elem_of_app. left.
    apply list_elem_of_filter. split; [|done].
    intros Heq. symmetry in Heq.
    destruct (Ht k (handle tm) Heq) as (tm2 & Hin2 & Hid2 & Hh2).
    apply Hne. rewrite <- Hid, <- Hid2. symmetry.
    by apply (well_formed_handle_identifier w tm tm2 Hwf Hin Hin2).
Qed.

Lemma fire_tight tm0 w :
  well_formed w → tm0 ∈ pending w → tight w → tight (fire call tm0 w).
Proof.
  intros Hwf Hin0 Ht k h Hl.
  destruct (fire_fields call call_frame tm0 w) as (_ & _ & Hp & Hm & _).
  rewrite Hm in Hl. rewrite Hp.
  destruct (decide (identifier tm0 = k)) as [<-|Hne].
  { by rewrite lookup_delete_eq in Hl. }
  rewrite lookup_delete_ne in Hl by done.
  destruct (Ht k h Hl) as (tm & Hin & Hid & Hh).
  exists tm. split; [|done]. apply list_elem_of_filter. split; [|done].
  intros Heq. apply Hne. rewrite <- Hid. symmetry.
  by apply (well_formed_handle_identifier w tm tm0 Hwf Hin Hin0).
Qed.

Lemma run_due_tight fuel T w :
  well_formed w → tight w → tight (run_due call fuel T w).
Proof.
  revert w. induction fuel as [|fuel IH]; intros w Hwf Ht; simpl; [done|].
  destruct (earliest (pending w)) as [tm|] eqn:He; [|done].
  destruct (due tm <=? T); [|done].
  apply earliest_Some in He as [Hin _].
  apply IH; [by apply fire_well_formed | by apply fire_tight].
Qed.

Lemma advance_tight T w : well_formed w → tight w → tight (advance call T w).
Proof. intros Hwf Ht. exact (run_due_tight (length (pending w)) T w Hwf Ht). Qed.

Lemma debounce_ts_tight k f delay w :
  well_formed w → tight w → tight (DebounceTs.debounce call k f delay w).
Proof.
  intros Hwf Ht. destruct (decide (default 0 delay = 0)) as [Hz|Hnz].
  - unfold DebounceTs.debounce. rewrite Hz. simpl. unfold invoke.
    match goal with |- context [call f ?x] =>
      destruct (call_frame f x) as (_ & _ & H3 & H4 & _) end.
    unfold tight. rewrite H3, H4. exact Ht.
  - destruct delay as [[|d]|]; [done| |done].
    rewrite debounce_positive_agree by lia. by apply debounce_alt_tight.
Qed.

(** From a tight world the map's handles are below the counter. *)
Lemma tight_handle_bound w k h :
  well_formed w → tight w → debounceMap w !! k = Some h → h < nextHandle w.
Proof.
  intros (_ & _ & Hreg) Ht Hl. destruct (Ht k h Hl) as (tm & Hin & _ & <-).
  rewrite Forall_forall in Hreg. by destruct (Hreg tm Hin).
Qed.

Lemma ops_keep_shape w ops :
  well_formed w → tight w →
  well_formed (run_ops call w ops) ∧ tight (run_ops call w ops).
Proof.
  intros Hwf Ht. unfold run_ops.
  induction ops as [|op ops IH] using rev_ind; [done|].
  rewrite foldl_app. cbn [foldl]. destruct IH as [Hwf' Ht'].
  destruct op as [k f delay|T]; cbn [apply_op].
  - split; [by apply debounce_ts_well_formed | by apply debounce_ts_tight].
  - split; [by apply advance_well_formed | by apply advance_tight].
Qed.

Lemma loaded_shape (t h : nat) (u : U) :
  well_formed (loaded (F:=F) t h u) ∧ tight (loaded (F:=F) t h u).
Proof.
  split; [by apply idle_well_formed|]. intros k h' Hl. simpl in Hl.
  by rewrite lookup_empty in Hl.
Qed.

(** The worlds a program reaches from the freshly loaded module. *)
Lemma reached_shape (t h : nat) (u : U) ops :
  well_formed (run_ops call (loaded t h u) ops)
  ∧ tight (run_ops call (loaded t h u) ops).
Proof. destruct (loaded_shape t h u). by apply ops_keep_shape. Qed.

End DebounceRunFacts.

Section DebounceRunClaims.
Import Timers DebounceRuns.

Lemma last_cons_default {A} (x d : A) (l : list A) :
  List.last (x :: l) d = List.last l x.
Proof.
  revert x d. induction l as [|y l IH]; intros x d; [done|].
  change (List.last (x :: y :: l) d) with (List.last (y :: l) d).
  by rewrite (IH y d), (IH y x).
Qed.

Lemma burst_ext {F U} (call : F → World F U → World F U)
    (deb1 deb2 : string → F → option nat → World F U → World F U) k d calls w :
  (∀ f w', deb1 k f (Some d) w' = deb2 k f (Some d) w') →
  burst call deb1 k d calls w = burst call deb2 k d calls w.
Proof.
  intros Hext. revert w. induction calls as [|[t f] calls IH]; intros w; [done|].
  simpl. by rewrite Hext, IH.
Qed.

(** While the timeout of [k] waits, a later call under [k] replaces it. *)
Lemma burst_alt {F U} (call : F → World F U → World F U) k d rest :
  frame call → 0 < d →
  ∀ (w : World F U) t f tm T,
    well_formed w → now w = t →
    tm ∈ pending w → identifier tm = k → func tm = f → due tm = t + d →
    chained t d rest → (List.last rest (t, f)).1 ≤ T →
    calls_of k (advance call T (burst call DebounceAlt.debounce k d rest w))
    = calls_of k w
      ++ (if decide ((List.last rest (t, f)).1 + d ≤ T)
          then [((List.last rest (t, f)).1 + d, k, (List.last rest (t, f)).2)]
          else []).
Proof.
  intros Hframe Hd. induction rest as [|[t' f'] rest IH];
    intros w t f tm T Hwf Hnow Hin Hid Hf Hdue Hch HT.
  - simpl in *.
    destruct (run_due_mine call Hframe (length (pending w)) T k w tm)
      as (_ & _ & _ & Hres); [done|done|done|lia|done|].
    change (calls_of k (advance call T w))
      with (calls_of k (run_due call (length (pending w)) T w)).
    rewrite Hdue, Hf in Hres.
    destruct (decide (t + d ≤ T)); destruct Hres as [-> _]; [done|].
    by rewrite app_nil_r.
  - destruct Hch as (Hle & Hlt & Hch). rewrite last_cons_default in HT |- *.
    cbn [burst].
    destruct (run_due_mine call Hframe (length (pending w)) t' k w tm)
      as (Hwf1 & _ & Hn1 & Hres); [done|done|done|lia|done|].
    rewrite decide_False in Hres by lia. destruct Hres as [Hc1 Hin1].
    set (w1 := advance call t' w).
    assert (well_formed w1) as Hwf1'
      by (by apply (well_formed_same_timers _ _ eq_refl eq_refl eq_refl Hwf1)).
    assert (now w1 = t') as Hnow1.
    { destruct (advance_fields call t' w) as (Hna & _). fold w1 in Hna. lia. }
    assert (calls_of k w1 = calls_of k w) as Hc1' by exact Hc1.
    set (w2 := DebounceAlt.debounce k f' (Some d) w1).
    destruct (debounce_alt_fields k f' (Some d) w1) as (Hn2 & _ & Hr2 & _ & _ & Hp2).
    fold w2 in Hn2, Hr2, Hp2. change (default 500 (Some d)) with d in Hp2.
    pose proof (debounce_alt_well_formed k f' (Some d) w1 Hwf1') as Hwf2.
    fold w2 in Hwf2.
    rewrite (IH w2 t' f' (armed k f' d w1) T); try done.
    + f_equal. rewrite <- Hc1'. unfold calls_of. by rewrite Hr2.
    + by rewrite Hn2.
    + rewrite Hp2. apply elem_of_app. right. by left.
    + change (due (armed k f' d w1)) with (now w1 + d). by rewrite Hnow1.
Qed.

(** X3.  In a program whose debounced functions leave the timers alone,
    after any calls and waits since the module was loaded: a burst of calls
    under one identifier, each made before the delay of the one before has
    elapsed, calls only the function of the last call, once, when the delay
    has passed since that last call.  The second helper, run from the same
    world, does the same. *)
Theorem debounce_burst {F U} (call : F → World F U → World F U)
    (t h : nat) (u : U) (ops : list (Op (F:=F)))
    (k : string) (d : nat) (f0 : F) (rest : list (nat * F)) (T : nat) :
  frame call → 0 < d →
  let w0 := run_ops call (loaded t h u) ops in
  chained (now w0) d rest →
  (List.last rest (now w0, f0)).1 ≤ T →
  let final (debounce : string → F → option nat → World F U → World F U) :=
    advance call T (burst call debounce k d rest (debounce k f0 (Some d) w0)) in
  let l := List.last rest (now w0, f0) in
  let called := if decide (l.1 + d ≤ T) then [(l.1 + d, k, l.2)] else [] in
  calls_of k (final (DebounceTs.debounce call)) = calls_of k w0 ++ called
  ∧ calls_of k (final DebounceAlt.debounce) = calls_of k w0 ++ called.
Proof.
  intros Hframe Hd w0.
  destruct (reached_shape call Hframe t h u ops) as [Hwf _]. fold w0 in Hwf.
  clearbody w0. clear t h u ops.
  intros Hch HT final l called. subst final l called. cbv beta.
  assert (calls_of k (advance call T (burst call DebounceAlt.debounce k d rest
                                       (DebounceAlt.debounce k f0 (Some d) w0)))
          = calls_of k w0
            ++ (if decide ((List.last rest (now w0, f0)).1 + d ≤ T)
                then [((List.last rest (now w0, f0)).1 + d, k,
                       (List.last rest (now w0, f0)).2)]
                else [])) as Halt.
  { destruct (debounce_alt_fields k f0 (Some d) w0) as (Hn & _ & Hr & _ & _ & Hp).
    change (default 500 (Some d)) with d in Hp.
    rewrite (burst_alt call k d rest Hframe Hd _ (now w0) f0 (armed k f0 d w0) T);
      try done.
    - f_equal. unfold calls_of. by rewrite Hr.
    - by apply debounce_alt_well_formed.
    - rewrite Hp. apply elem_of_app. right. by left. }
  split; [|exact Halt].
  rewrite (burst_ext call (DebounceTs.debounce call) DebounceAlt.debounce).
  - by rewrite debounce_positive_agree.
  - intros f w'. by apply debounce_positive_agree.
Qed.

End DebounceRunClaims.

Section DebounceEdges.
Import Timers DebounceRuns.

(** [Samples.busy] is the world of a program that has asked for one save. *)
Lemma busy_reached :
  run_ops Samples.say (loaded 1000 7 []) [Call "save" "save draft" (Some 50)]
  = Samples.busy.
Proof. reflexivity. Qed.

Lemma debounce_burst_witness :
  calls_of "search"
    (advance Samples.say 1400
       (burst Samples.say (DebounceTs.debounce Samples.say) "search" 100
          [(1040, "se"); (1090, "sea"); (1180, "sear")]
          (DebounceTs.debounce Samples.say "search" "s" (Some 100) Samples.busy)))
  = [(1280, "search", "sear")].
Proof.
  pose proof (debounce_burst Samples.say 1000 7 []
                [Call "save" "save draft" (Some 50)] "search" 100 "s"
                [(1040, "se"); (1090, "sea"); (1180, "sear")] 1400 say_frame) as H.
  cbv zeta in H. rewrite busy_reached in H.
  destruct H as [H _].
  - lia.
  - simpl. lia.
  - simpl. lia.
  - exact H.
Defined.

(** X1.  Whatever calls of [debounce] and waits a program makes, with
    functions that leave the timers alone: the map has an entry for exactly
    the identifiers that have a timeout pending, no identifier has two
    timeouts pending, and the entry is the handle of that timeout. *)
Theorem debounce_map_tracks_pending {F U} (call : F → World F U → World F U)
    (t h : nat) (u : U) (ops : list (Op (F:=F))) :
  frame call →
  let w := run_ops call (loaded t h u) ops in
  NoDup (map identifier (pending w))
  ∧ (∀ k, is_Some (debounceMap w !! k) ↔ ∃ tm, tm ∈ pending w ∧ identifier tm = k)
  ∧ (∀ tm, tm ∈ pending w → debounceMap w !! identifier tm = Some (handle tm)).
Proof.
  intros Hframe w.
  destruct (loaded_shape (F:=F) t h u) as [Hwf0 Ht0].
  destruct (ops_keep_shape call Hframe _ ops Hwf0 Ht0) as [Hwf Ht]. fold w in Hwf, Ht.
  destruct Hwf as (_ & Hi & Hreg). rewrite Forall_forall in Hreg.
  split; [done|]. split.
  - intros k. split.
    + intros [h' Hl]. destruct (Ht k h' Hl) as (tm & Hin & Hid & _). by exists tm.
    + intros (tm & Hin & <-). destruct (Hreg tm Hin) as [_ Hl]. by rewrite Hl.
  - intros tm Hin. by destruct (Hreg tm Hin).
Qed.

Lemma debounce_map_tracks_pending_witness :
  let w := run_ops Samples.say (loaded 0 1 [])
             [Call "a" "fa" (Some 50); Call "b" "fb" (Some 20); Wait 30;
              Call "a" "fa2" (Some 50); Call "c" "fc" None] in
  map identifier (pending w) = ["a"]
  ∧ is_Some (debounceMap w !! "a") ∧ ¬ is_Some (debounceMap w !! "b").
Proof.
  pose proof (debounce_map_tracks_pending Samples.say 0 1 []
                [Call "a" "fa" (Some 50); Call "b" "fb" (Some 20); Wait 30;
                 Call "a" "fa2" (Some 50); Call "c" "fc" None] say_frame)
    as (_ & H & _).
  cbv zeta. split; [reflexivity|]. split.
  - apply H. eexists. split; [by left | reflexivity].
  - intros Hb. apply H in Hb as (tm & Hin & Hid).
    vm_compute in Hin. apply list_elem_of_singleton in Hin. subst tm. discriminate.
Defined.

(** X2.  In a program whose debounced functions leave the timers alone,
    after any calls and waits since the module was loaded: one call with a
    positive delay, and before the delay has passed nothing is called and
    the map holds the handle of the new timeout; from then on the function
    has been called exactly once, at the due time, and the map has no entry
    for the identifier. *)
Theorem debounce_single_call {F U} (call : F → World F U → World F U)
    (t h : nat) (u : U) (ops : list (Op (F:=F)))
    (k : string) (f : F) (d T : nat) :
  frame call → 0 < d →
  let w := run_ops call (loaded t h u) ops in
  let w' := advance call T (DebounceTs.debounce call k f (Some d) w) in
  if decide (now w + d ≤ T)
  then calls_of k w' = calls_of k w ++ [(now w + d, k, f)]
       ∧ debounceMap w' !! k = None
  else calls_of k w' = calls_of k w
       ∧ debounceMap w' !! k = Some (nextHandle w).
Proof.
  intros Hframe Hd w.
  destruct (reached_shape call Hframe t h u ops) as [Hwf Ht]. fold w in Hwf, Ht.
  clearbody w. clear t h u ops. intros w'. subst w'.
  rewrite debounce_positive_agree by done.
  set (w1 := DebounceAlt.debounce k f (Some d) w).
  destruct (debounce_alt_fields k f (Some d) w) as (Hn & _ & Hr & _ & _ & Hp).
  fold w1 in Hn, Hr, Hp. change (default 500 (Some d)) with d in Hp.
  pose proof (debounce_alt_well_formed k f (Some d) w Hwf) as Hwf1.
  pose proof (debounce_alt_tight k f (Some d) w Hwf Ht) as Ht1.
  fold w1 in Hwf1, Ht1.
  pose proof (advance_tight call Hframe T w1 Hwf1 Ht1) as Ht2.
  destruct (run_due_mine call Hframe (length (pending w1)) T k w1 (armed k f d w))
    as (Hwf2 & _ & _ & Hres).
  { done. } { rewrite Hp. apply elem_of_app. right. by left. }
  { done. } { rewrite Hn. simpl. lia. } { done. }
  change (due (armed k f d w)) with (now w + d) in Hres.
  change (func (armed k f d w)) with f in Hres.
  assert (calls_of k w1 = calls_of k w) as Hc by (unfold calls_of; by rewrite Hr).
  change (calls_of k (advance call T w1))
    with (calls_of k (run_due call (length (pending w1)) T w1)).
  change (debounceMap (advance call T w1))
    with (debounceMap (run_due call (length (pending w1)) T w1)).
  destruct (decide (now w + d ≤ T)).
  - destruct Hres as [-> Hnone]. rewrite Hc. split; [done|].
    destruct (debounceMap _ !! k) as [h|] eqn:Hl; [|done].
    destruct (Ht2 k h Hl) as (tm & Hin & Hid & _). by destruct (Hnone tm Hin).
  - destruct Hres as [-> Hin]. rewrite Hc. split; [done|].
    destruct Hwf2 as (_ & _ & Hreg). rewrite Forall_forall in Hreg.
    by destruct (Hreg _ Hin) as [_ Hl].
Qed.

Lemma debounce_single_call_witness :
  calls_of "search"
    (advance Samples.say 1100
       (DebounceTs.debounce Samples.say "search" "go" (Some 100) Samples.busy))
  = [(1100, "search", "go")].
Proof.
  pose proof (debounce_single_call Samples.say 1000 7 []
                [Call "save" "save draft" (Some 50)] "search" "go" 100 1100
                say_frame ltac:(lia)) as H.
  cbv zeta in H. rewrite busy_reached in H.
  rewrite decide_True in H by (simpl; lia). by destruct H as [-> _].
Defined.

End DebounceEdges.

Section DebounceMoreEdges.
Import Timers DebounceRuns.



(** X5.  In a program whose debounced functions leave the timers alone,
    after any calls and waits since the module was loaded: calls under
    different identifiers do not disturb each other, both functions are
    called, each once its own delay has passed. *)
Theorem debounce_identifiers_independent {F U} (call : F → World F U → World F U)
    (t h : nat) (u : U) (ops : list (Op (F:=F)))
    (k1 k2 : string) (f g : F) (d1 d2 T : nat) :
  frame call → k1 ≠ k2 → 0 < d1 → 0 < d2 →
  let w0 := run_ops call (loaded t h u) ops in
  now w0 + d1 ≤ T → now w0 + d2 ≤ T →
  let w := advance call T
             (DebounceTs.debounce call k2 g (Some d2)
                (DebounceTs.debounce call k1 f (Some d1) w0)) in
  calls_of k1 w = calls_of k1 w0 ++ [(now w0 + d1, k1, f)]
  ∧ calls_of k2 w = calls_of k2 w0 ++ [(now w0 + d2, k2, g)].
Proof.
  intros Hframe Hne Hd1 Hd2 w0.
  destruct (reached_shape call Hframe t h u ops) as [Hwf Ht]. fold w0 in Hwf, Ht.
  clearbody w0. clear t h u ops. intros HT1 HT2 w. subst w.
  rewrite !debounce_positive_agree by done.
  set (w1 := DebounceAlt.debounce k1 f (Some d1) w0).
  destruct (debounce_alt_fields k1 f (Some d1) w0) as (Hn1 & Hh1 & Hr1 & _ & Hm1 & Hp1).
  fold w1 in Hn1, Hh1, Hr1, Hm1, Hp1. change (default 500 (Some d1)) with d1 in Hp1.
  pose proof (debounce_alt_well_formed k1 f (Some d1) w0 Hwf) as Hwf1. fold w1 in Hwf1.
  set (w2 := DebounceAlt.debounce k2 g (Some d2) w1).
  destruct (debounce_alt_fields k2 g (Some d2) w1) as (Hn2 & _ & Hr2 & _ & _ & Hp2).
  fold w2 in Hn2, Hr2, Hp2. change (default 500 (Some d2)) with d2 in Hp2.
  pose proof (debounce_alt_well_formed k2 g (Some d2) w1 Hwf1) as Hwf2. fold w2 in Hwf2.
  assert (armed k1 f d1 w0 ∈ pending w2) as Hin1.
  { rewrite Hp2. apply elem_of_app. left. apply list_elem_of_filter. split.
    - rewrite Hm1, lookup_insert_ne by done. intros Heq. symmetry in Heq.
      pose proof (tight_handle_bound w0 k2 _ Hwf Ht Heq) as Hlt. simpl in Hlt. lia.
    - rewrite Hp1. apply elem_of_app. right. by left. }
  assert (armed k2 g d2 w1 ∈ pending w2) as Hin2.
  { rewrite Hp2. apply elem_of_app. right. by left. }
  change (calls_of k1 (advance call T w2))
    with (calls_of k1 (run_due call (length (pending w2)) T w2)).
  change (calls_of k2 (advance call T w2))
    with (calls_of k2 (run_due call (length (pending w2)) T w2)).
  split.
  - destruct (run_due_mine call Hframe (length (pending w2)) T k1 w2 (armed k1 f d1 w0))
      as (_ & _ & _ & Hres); [done|done|done| |done|].
    { rewrite Hn2, Hn1. simpl. lia. }
    rewrite decide_True in Hres by (simpl; lia). destruct Hres as [-> _].
    f_equal. unfold calls_of. by rewrite Hr2, Hr1.
  - destruct (run_due_mine call Hframe (length (pending w2)) T k2 w2 (armed k2 g d2 w1))
      as (_ & _ & _ & Hres); [done|done|done| |done|].
    { rewrite Hn2. simpl. lia. }
    change (due (armed k2 g d2 w1)) with (now w1 + d2) in Hres. rewrite Hn1 in Hres.
    rewrite decide_True in Hres by lia. destruct Hres as [-> _].
    f_equal. unfold calls_of. by rewrite Hr2, Hr1.
Qed.

Lemma debounce_identifiers_independent_witness :
  let w := advance Samples.say 1300
             (DebounceTs.debounce Samples.say "value" "set" (Some 200)
                (DebounceTs.debounce Samples.say "change" "tell" (Some 100)
                   Samples.busy)) in
  calls_of "change" w = [(1100, "change", "tell")]
  ∧ calls_of "value" w = [(1200, "value", "set")].
Proof.
  pose proof (debounce_identifiers_independent Samples.say 1000 7 []
                [Call "save" "save draft" (Some 50)] "change" "value" "tell" "set"
                100 200 1300 say_frame) as H.
  cbv zeta in H. rewrite busy_reached in H.
  destruct H as [H1 H2]; [done | simpl; lia..|].
  split; [exact H1 | exact H2].
Defined.

End DebounceMoreEdges.

(** ** Validation passes that overlap, and the derived signals *)
Section ValidationExtras.
Import Validation Derived.

(** A pass on a queue that still holds callbacks of an earlier pass. *)
Lemma pass_errors_overlapping front vs x st :
  drain (concat_errors front (forEach_validators vs x (clear_errors st)))
  = {| errors := front ++ by_settlement
                            (microtasks st ++ map (fun valFunction => valFunction x) vs);
       microtasks := [] |}.
Proof.
  pose proof (drain_empties
    (concat_errors front (forEach_validators vs x (clear_errors st)))) as He.
  destruct (drain _) as [e q] eqn:Hd. simpl in He. subst q. f_equal.
  change e with (errors {| errors := e; microtasks := [] |}).
  rewrite <- Hd. unfold concat_errors, forEach_validators, clear_errors. simpl.
  by rewrite drain_prefix, drain_by_settlement.
Qed.

Lemma textarea_pass_overlapping config x st :
  drain (Textarea.validate config x st)
  = {| errors := (if Textarea.required config && Textarea.blank x
                  then [required_message] else [])
                 ++ by_settlement (microtasks st
                                   ++ map (fun valFunction => valFunction x)
                                        (Textarea.validators config));
       microtasks := [] |}.
Proof.
  unfold Textarea.validate.
  destruct (Textarea.required config && Textarea.blank x).
  - apply pass_errors_overlapping.
  - rewrite <- (pass_errors_overlapping [] _ x st). f_equal.
Qed.

Lemma by_settlement_settled q :
  Forall (fun j => hops j = 0) q → by_settlement q = concat (omap settled q).
Proof.
  intros Hq. rewrite <- drain_by_settlement. by rewrite drain_settled.
Qed.

(** X6.  [validate] cancels nothing: when it runs again before the callbacks
    of an earlier pass have resumed, the list is cleared but the results of
    the earlier pass still arrive, in front of those of the new pass.  With
    synchronous validators two passes in one task leave the required-field
    message of the second pass, then the messages for the first value, then
    the messages for the second value. *)
Theorem overlapping_passes (config : Textarea.TextareaConfig) (x1 x2 : JsValue)
    (st : Form) :
  microtasks st = [] →
  synchronous (Textarea.validators config) x1 →
  synchronous (Textarea.validators config) x2 →
  errors (drain (Textarea.validate config x2 (Textarea.validate config x1 st)))
  = (if Textarea.required config && Textarea.blank x2 then [required_message] else [])
    ++ collected (Textarea.validators config) x1
    ++ collected (Textarea.validators config) x2.
Proof.
  intros Hst Hs1 Hs2. rewrite textarea_pass_overlapping. simpl. f_equal.
  assert (microtasks (Textarea.validate config x1 st)
          = map (fun valFunction => valFunction x1) (Textarea.validators config)) as ->.
  { unfold Textarea.validate.
    destruct (Textarea.required config && Textarea.blank x1); simpl; by rewrite Hst. }
  rewrite by_settlement_settled.
  - rewrite omap_app, concat_app. unfold collected. by rewrite !omap_after_map.
  - apply Forall_app. split; apply Forall_map; assumption.
Qed.

Lemma overlapping_passes_witness :
  errors (drain (Textarea.validate Samples.notes (JString "")
                   (Textarea.validate Samples.notes (JString "ab") Samples.stale)))
  = [required_message; "Too short."; "Too short."].
Proof.
  rewrite (overlapping_passes Samples.notes (JString "ab") (JString "") Samples.stale).
  - reflexivity.
  - reflexivity.
  - repeat constructor.
  - repeat constructor.
Defined.

Lemma concat_nil_iff {A} (ls : list (list A)) :
  concat ls = [] ↔ Forall (fun l => l = []) ls.
Proof.
  induction ls as [|l ls IH]; simpl; [by split|]. split.
  - intros [-> Hls]%app_eq_nil. constructor; [done|]. by apply IH.
  - intros Hall. inversion Hall as [|? ? -> Hls]. simpl. by apply IH.
Qed.

Lemma collected_nil_iff vs x :
  collected vs x = [] ↔ Forall (fun valFunction => silent (valFunction x)) vs.
Proof.
  unfold collected. rewrite concat_nil_iff.
  induction vs as [|f vs IH]; simpl; [by split|].
  unfold silent in *. destruct (settled (f x)) as [l|] eqn:Hf.
  - split.
    + intros Hall. inversion Hall as [|? ? -> Hrest]. constructor; [by right|].
      by apply IH.
    + intros Hall. inversion Hall as [|? ? [Hn|Hs] Hrest]; [congruence|].
      constructor; [congruence|]. by apply IH.
  - split.
    + intros Hall. constructor; [by left|]. by apply IH.
    + intros Hall. inversion Hall as [|? ? _ Hrest]. by apply IH.
Qed.




(** A text of three characters on a clean form is valid; the same text
    written in the task in which "ab" was validated is not. *)
Example valid_class_iff_example :
  invalidClass (drain (Textarea.validate Samples.notes (JString "abc") Samples.stale))
  = "valid"
  ∧ invalidClass (drain (Textarea.validate Samples.notes (JString "abc")
                           (Textarea.validate Samples.notes (JString "ab") Samples.stale)))
    = "invalid"
  ∧ invalidClass (drain (Checkbox.validate Samples.terms (JBool true) Samples.stale))
    = "valid".
Proof. split_and!; reflexivity. Qed.

End ValidationExtras.

(** ** The input component over an edit and its timeouts *)
Section InputFacts.
Import Validation Timers DebounceRuns.

Lemma append_inj_r (s a b : string) : s +:+ a = s +:+ b → a = b.
Proof. induction s as [|c s IH]; simpl; [done|]. intros [= H]. by apply IH. Qed.

Lemma filter_none {A} (P : A → Prop) `{!∀ a, Decision (P a)} (l : list A) :
  Forall (fun a => ¬ P a) l → filter P l = [].
Proof.
  induction 1 as [|a l Ha _ IH]; [done|]. by rewrite filter_cons_False.
Qed.

(** A handle names one pending timeout. *)
Lemma unique_handle {F U} (w : World F U) tm :
  well_formed w → tm ∈ pending w →
  filter (fun tm' => handle tm' = handle tm) (pending w) = [tm].
Proof.
  intros (Hh & _ & _). induction (pending w) as [|tm0 l IH]; [by inversion 1|].
  simpl in Hh. apply NoDup_cons in Hh as [Hnot Hh]. intros Hin.
  apply elem_of_cons in Hin as [->|Hin].
  - rewrite filter_cons_True by done. f_equal. apply filter_none.
    apply Forall_forall. intros tm' Hin' Heq. apply Hnot. rewrite <- Heq.
    apply list_elem_of_fmap. by exists tm'.
  - rewrite filter_cons_False; [by apply IH|].
    intros Heq. apply Hnot. rewrite Heq. apply list_elem_of_fmap. by exists tm.
Qed.

Lemma tight_same_timers {F U} (w w' : World F U) :
  pending w' = pending w → debounceMap w' = debounceMap w → tight w → tight w'.
Proof. unfold tight. by intros -> ->. Qed.

(** One scheduling call, seen from a well-formed and tight world. *)
Lemma alt_step {F U} (k : string) (f : F) (d : nat) (w : World F U) :
  well_formed w → tight w →
  let w' := DebounceAlt.debounce k f (Some d) w in
  well_formed w' ∧ tight w' ∧ user w' = user w ∧ now w' = now w
  ∧ nextHandle w' = S (nextHandle w) ∧ armed k f d w ∈ pending w'
  ∧ ∀ tm, tm ∈ pending w → identifier tm ≠ k → tm ∈ pending w'.
Proof.
  intros Hwf Ht w'. subst w'.
  destruct (debounce_alt_fields k f (Some d) w) as (Hn & Hh & _ & Hu & _ & Hp).
  change (default 500 (Some d)) with d in Hp.
  split; [by apply debounce_alt_well_formed|].
  split; [by apply debounce_alt_tight|].
  split; [done|]. split; [done|]. split; [done|]. rewrite Hp. split.
  - apply elem_of_app. right. by left.
  - intros tm Hin Hne. apply elem_of_app. left.
    apply list_elem_of_filter. split; [|done].
    intros Heq. symmetry in Heq.
    destruct (Ht k (handle tm) Heq) as (tm2 & Hin2 & Hid2 & Hh2).
    apply Hne. rewrite <- Hid2.
    by apply (well_formed_handle_identifier w tm tm2 Hwf Hin Hin2).
Qed.

Lemma held_back_just_edited config (w : Input.InputWorld) d :
  Input.debounce config = Some d → 0 < d →
  Input.lastChange (user w) = now w →
  Input.held_back config w = Some d.
Proof.
  intros Hdeb Hd Hlast. unfold Input.held_back. rewrite Hdeb, Hlast.
  destruct d as [|d]; [lia|].
  assert ((Z.of_nat (now w) - Z.of_nat (now w) <? Z.of_nat (S d))%Z = true) as ->; [|done].
  apply Z.ltb_lt. lia.
Qed.

Lemma held_back_quiet config (w : Input.InputWorld) d :
  Input.debounce config = Some d →
  Input.lastChange (user w) + d ≤ now w →
  Input.held_back config w = None.
Proof.
  intros Hdeb Hq. unfold Input.held_back. rewrite Hdeb.
  destruct d as [|d]; [done|].
  assert ((Z.of_nat (now w) - Z.of_nat (Input.lastChange (user w)) <? Z.of_nat (S d))%Z
          = false) as ->; [|done].
  apply Z.ltb_ge. lia.
Qed.

End InputFacts.

(** ** Edits of the input component *)
Section InputEdits.
Import Validation Timers DebounceRuns.
(** What [oninput] leaves behind when everything is deferred. *)
Lemma oninput_debounced config text (w : Input.InputWorld) d :
  Input.value_is_signal config = false → Input.debounce config = Some d → 0 < d →
  well_formed w → tight w →
  let w' := Input.oninput config text w in
  let x := JString text in
  user w' = {| Input.form := clear_errors (Input.form (user w)); Input.touched := true;
               Input.lastChange := now w; Input.bound := Input.bound (user w);
               Input.shown := text;
               Input.reported := Input.reported (user w) |}
  ∧ now w' = now w ∧ well_formed w' ∧ tight w'
  ∧ {| handle := nextHandle w; due := now w + d;
       identifier := Input.inputId config +:+ "validate";
       func := Input.ValidateLater x |} ∈ pending w'
  ∧ (Input.has_onchange config = true →
     {| handle := S (nextHandle w); due := now w + d;
        identifier := Input.inputId config +:+ "change";
        func := Input.ChangeLater |} ∈ pending w')
  ∧ {| handle := (if Input.has_onchange config then 2 else 1) + nextHandle w;
       due := now w + d;
       identifier := Input.inputId config +:+ "value";
       func := Input.ValueLater |} ∈ pending w'.
Proof.
  intros Hsig Hdeb Hd Hwf Ht w' x. subst w' x.
  unfold Input.oninput. rewrite Hsig. cbv zeta.
  match goal with |- context [Input.validate config _ ?x] => set (w0 := x) end.
  change (Input.shown (user w0)) with text.
  assert (Input.validate config (JString text) w0
          = DebounceAlt.debounce (Input.inputId config +:+ "validate")
              (Input.ValidateLater (JString text)) (Some d)
              (Input.on_form clear_errors w0)) as Hv.
  { unfold Input.validate. rewrite held_back_on_form.
    by rewrite (held_back_just_edited config w0 d Hdeb Hd eq_refl). }
  rewrite Hv. clear Hv.
  set (wA := Input.on_form clear_errors w0).
  assert (well_formed wA) as HwfA by exact Hwf.
  assert (tight wA) as HtA by exact Ht.
  destruct (alt_step (Input.inputId config +:+ "validate")
              (Input.ValidateLater (JString text)) d wA HwfA HtA)
    as (Hwf1 & Ht1 & Hu1 & Hn1 & Hh1 & Hin1 & Hkeep1).
  set (w1 := DebounceAlt.debounce _ _ _ wA) in *.
  rewrite Hdeb. rewrite !(debounce_positive_agree (Input.call config)) by done.
  assert (user wA = {| Input.form := clear_errors (Input.form (user w));
                       Input.touched := true; Input.lastChange := now w;
                       Input.bound := Input.bound (user w);
               Input.shown := text;
                       Input.reported := Input.reported (user w) |}) as HuA by done.
  assert (now wA = now w) as HnA by done.
  assert (nextHandle wA = nextHandle w) as HhA by done.
  assert ("validate" ≠ "change" ∧ "validate" ≠ "value" ∧ "change" ≠ "value")
    as (Hvc & Hvv & Hcv) by done.
  destruct (Input.has_onchange config).
  - destruct (alt_step (Input.inputId config +:+ "change")
                (Input.ChangeLater) d w1 Hwf1 Ht1)
      as (Hwf2 & Ht2 & Hu2 & Hn2 & Hh2 & Hin2 & Hkeep2).
    set (w2 := DebounceAlt.debounce _ _ _ w1) in *.
    destruct (alt_step (Input.inputId config +:+ "value")
                (Input.ValueLater) d w2 Hwf2 Ht2)
      as (Hwf3 & Ht3 & Hu3 & Hn3 & Hh3 & Hin3 & Hkeep3).
    set (w3 := DebounceAlt.debounce _ _ _ w2) in *.
    split; [by rewrite Hu3, Hu2, Hu1|]. split; [by rewrite Hn3, Hn2, Hn1|].
    split; [done|]. split; [done|]. split; [|split].
    + apply Hkeep3; [apply Hkeep2|]; [exact Hin1| |].
      * simpl. intros Heq%append_inj_r. done.
      * simpl. intros Heq%append_inj_r. done.
    + intros _. apply Hkeep3.
      * unfold armed in Hin2. by rewrite Hh1, Hn1, HhA, HnA in Hin2.
      * simpl. intros Heq%append_inj_r. done.
    + unfold armed in Hin3. by rewrite Hh2, Hh1, Hn2, Hn1, HhA, HnA in Hin3.
  - destruct (alt_step (Input.inputId config +:+ "value")
                (Input.ValueLater) d w1 Hwf1 Ht1)
      as (Hwf3 & Ht3 & Hu3 & Hn3 & Hh3 & Hin3 & Hkeep3).
    set (w3 := DebounceAlt.debounce _ _ _ w1) in *.
    split; [by rewrite Hu3, Hu1|]. split; [by rewrite Hn3, Hn1|].
    split; [done|]. split; [done|]. split; [|split].
    + apply Hkeep3; [exact Hin1|]. simpl. intros Heq%append_inj_r. done.
    + done.
    + unfold armed in Hin3. by rewrite Hh1, Hn1, HhA, HnA in Hin3.
Qed.

Lemma step_timeout config (w : Input.InputWorld) tm t2 :
  well_formed w → tm ∈ pending w → due tm ≤ t2 →
  Input.step config w (Input.Timeout t2 (handle tm))
  = Input.checkpoint (fire (Input.call config) tm (Input.at_time t2 w)).
Proof.
  intros Hwf Hin Hdue. cbn [Input.step].
  rewrite (unique_handle w tm Hwf Hin).
  apply Nat.leb_le in Hdue. by rewrite Hdue.
Qed.

Lemma fire_user config tm (w : Input.InputWorld) :
  user (fire (Input.call config) tm w)
  = user (Input.call config (func tm)
            {| now := now w `max` due tm; nextHandle := nextHandle w;
               pending := filter (fun tm' => handle tm' ≠ handle tm) (pending w);
               debounceMap := debounceMap w;
               ran := ran w ++ [(now w `max` due tm, identifier tm, func tm)];
               user := user w |}).
Proof. done. Qed.

(** X8.  An [input] with a debounce delay whose value is not a signal: an
    edit clears the error list and validates nothing; when the timeout it
    armed for the validation fires, after the delay, the pass runs on the
    edited text, with the field touched. *)
Theorem input_debounced_validation (config : Input.InputConfig) (text : string)
    (t t2 d : nat) (w : Input.InputWorld) :
  Input.value_is_signal config = false →
  Input.debounce config = Some d → 0 < d →
  well_formed w → tight w →
  microtasks (Input.form (user w)) = [] →
  now w ≤ t → t + d ≤ t2 →
  let w1 := Input.step config w (Input.Edit t text) in
  let w2 := Input.step config w1 (Input.Timeout t2 (nextHandle w)) in
  Input.form (user w1) = {| errors := []; microtasks := [] |}
  ∧ Input.form (user w2)
    = {| errors := (if Input.required config && Input.blank (JString text)
                    then [required_message] else [])
                   ++ arrivals (Input.validators config) (JString text);
         microtasks := [] |}.
Proof.
  intros Hsig Hdeb Hd Hwf Ht Hq Ht1 Ht2 w1 w2.
  set (wat := Input.at_time t w).
  assert (now wat = t) as Hnat by (unfold wat; simpl; lia).
  destruct (oninput_debounced config text wat d Hsig Hdeb Hd Hwf Ht)
    as (Hu & Hn & Hwf' & Ht' & Hin & _).
  change (nextHandle wat) with (nextHandle w) in Hin.
  set (we := Input.oninput config text wat) in *.
  assert (w1 = Input.checkpoint we) as Hw1 by done.
  assert (Input.form (user w1) = {| errors := []; microtasks := [] |}) as Hf1.
  { rewrite Hw1. unfold Input.checkpoint. cbn [Input.on_form Input.set_user user Input.form].
    rewrite Hu. cbn [Input.form]. unfold clear_errors. change (user wat) with (user w).
    rewrite Hq. reflexivity. }
  split; [exact Hf1|].
  set (tv := {| handle := nextHandle w; due := now wat + d;
                identifier := Input.inputId config +:+ "validate";
                func := Input.ValidateLater (JString text) |}) in *.
  assert (well_formed w1) as Hwf1 by (rewrite Hw1; exact Hwf').
  assert (tv ∈ pending w1) as Hin1 by (rewrite Hw1; exact Hin).
  subst w2. change (nextHandle w) with (handle tv).
  rewrite (step_timeout config w1 tv t2 Hwf1 Hin1) by (simpl; lia).
  unfold Input.checkpoint at 1.
  cbn [Input.on_form Input.set_user user Input.form].
  rewrite fire_user. cbn [func tv Input.call].
  match goal with |- context [Input.validate config (JString text) ?x] => set (wl := x) end.
  pose proof (input_pass config (JString text) wl) as Hpass.
  unfold Input.checkpoint in Hpass.
  cbn [Input.on_form Input.set_user user Input.form] in Hpass.
  rewrite Hpass.
  - assert (Input.touched (user wl) = true) as ->.
    { change (user wl) with (user w1). rewrite Hw1.
      change (user (Input.checkpoint we)) with
        {| Input.form := drain (Input.form (user we)); Input.touched := Input.touched (user we);
           Input.lastChange := Input.lastChange (user we); Input.bound := Input.bound (user we);
           Input.shown := Input.shown (user we);
           Input.reported := Input.reported (user we) |}.
      cbn [Input.touched]. by rewrite Hu. }
    by rewrite andb_true_r.
  - change (user wl) with (user w1). by rewrite Hf1.
  - apply (held_back_quiet config wl d Hdeb).
    assert (Input.lastChange (user wl) = t) as ->.
    { change (user wl) with (user w1). rewrite Hw1.
      change (Input.lastChange (user (Input.checkpoint we)))
        with (Input.lastChange (user we)).
      rewrite Hu. cbn [Input.lastChange]. exact Hnat. }
    change (now wl) with ((now w1 `max` t2) `max` due tv). lia.
Qed.

(** X9.  The same edit neither writes the value nor calls [config.onchange]
    at once: the text reaches the value signal when the timeout armed for it
    fires, and [config.onchange] receives it when its own timeout fires. *)
Theorem input_debounced_report (config : Input.InputConfig) (text : string)
    (t t2 d : nat) (w : Input.InputWorld) :
  Input.value_is_signal config = false →
  Input.debounce config = Some d → 0 < d →
  well_formed w → tight w →
  now w ≤ t → t + d ≤ t2 →
  let w1 := Input.step config w (Input.Edit t text) in
  let hv := (if Input.has_onchange config then 2 else 1) + nextHandle w in
  Input.bound (user w1) = Input.bound (user w)
  ∧ Input.reported (user w1) = Input.reported (user w)
  ∧ Input.bound (user (Input.step config w1 (Input.Timeout t2 hv))) = JString text
  ∧ (Input.has_onchange config = true →
     Input.reported (user (Input.step config w1 (Input.Timeout t2 (S (nextHandle w)))))
     = Input.reported (user w) ++ [JString text]).
Proof.
  intros Hsig Hdeb Hd Hwf Ht Ht1 Ht2 w1 hv.
  set (wat := Input.at_time t w).
  assert (now wat = t) as Hnat by (unfold wat; simpl; lia).
  destruct (oninput_debounced config text wat d Hsig Hdeb Hd Hwf Ht)
    as (Hu & Hn & Hwf' & Ht' & _ & Hinc & Hinv).
  change (nextHandle wat) with (nextHandle w) in Hinc, Hinv.
  set (we := Input.oninput config text wat) in *.
  assert (w1 = Input.checkpoint we) as Hw1 by done.
  assert (well_formed w1) as Hwf1 by (rewrite Hw1; exact Hwf').
  assert (Input.bound (user w1) = Input.bound (user w)
          ∧ Input.reported (user w1) = Input.reported (user w)) as [Hb Hr].
  { rewrite Hw1.
    change (Input.bound (user (Input.checkpoint we))) with (Input.bound (user we)).
    change (Input.reported (user (Input.checkpoint we))) with (Input.reported (user we)).
    by rewrite Hu. }
  assert (Input.shown (user w1) = text) as Hs.
  { rewrite Hw1.
    change (Input.shown (user (Input.checkpoint we))) with (Input.shown (user we)).
    by rewrite Hu. }
  split; [exact Hb|]. split; [exact Hr|]. split.
  - set (tval := {| handle := hv; due := now wat + d;
                    identifier := Input.inputId config +:+ "value";
                    func := Input.ValueLater |}).
    assert (tval ∈ pending w1) as Hin1 by (rewrite Hw1; exact Hinv).
    change hv with (handle tval).
    rewrite (step_timeout config w1 tval t2 Hwf1 Hin1) by (simpl; lia).
    change (Input.bound (user (Input.checkpoint ?x))) with (Input.bound (user x)).
    rewrite fire_user. cbn [func tval Input.call]. unfold Input.write_value.
    rewrite Hsig. cbn [Input.set_user user Input.bound].
    change (user (Input.at_time t2 w1)) with (user w1). by rewrite Hs.
  - intros Hon. specialize (Hinc Hon).
    set (tc := {| handle := S (nextHandle w); due := now wat + d;
                  identifier := Input.inputId config +:+ "change";
                  func := Input.ChangeLater |}) in *.
    assert (tc ∈ pending w1) as Hin1 by (rewrite Hw1; exact Hinc).
    change (S (nextHandle w)) with (handle tc).
    rewrite (step_timeout config w1 tc t2 Hwf1 Hin1) by (simpl; lia).
    change (Input.reported (user (Input.checkpoint ?x))) with (Input.reported (user x)).
    rewrite fire_user. cbn [func tc Input.call Input.set_user user Input.reported].
    change (user (Input.at_time t2 w1)) with (user w1). by rewrite Hr, Hs.
Qed.

(** [oninput] stage by stage. *)
Lemma oninput_stages config text (w wc wd we : Input.InputWorld) :
  wc = Input.set_user {| Input.form := Input.form (user w); Input.touched := true;
                         Input.lastChange := now w; Input.bound := Input.bound (user w);
                         Input.shown := text; Input.reported := Input.reported (user w) |} w →
  wd = (if Input.value_is_signal config then wc
        else Input.validate config (JString text) wc) →
  we = (if Input.has_onchange config
        then DebounceTs.debounce (Input.call config) (Input.inputId config +:+ "change")
               Input.ChangeLater (Input.debounce config) wd
        else wd) →
  Input.oninput config text w
  = DebounceTs.debounce (Input.call config) (Input.inputId config +:+ "value")
      Input.ValueLater (Input.debounce config) we.
Proof. by intros -> -> ->. Qed.

(** A pass that is not held back touches the form only. *)
Lemma validate_open config x (w : Input.InputWorld) :
  Input.held_back config w = None →
  ∃ f, Input.validate config x w = Input.on_form f w.
Proof.
  intros Hopen. unfold Input.validate. rewrite held_back_on_form, Hopen. cbv zeta.
  destruct (_ && _ && _).
  - by exists (fun st => concat_errors [required_message]
                        (forEach_validators (Input.validators config) x (clear_errors st))).
  - by exists (fun st => forEach_validators (Input.validators config) x (clear_errors st)).
Qed.

(** X10.  Without a debounce delay (absent or [0]) an edit does everything
    in its own task, whether the value is a signal or not: the pass runs on
    the edited text, the value signal holds the text, [config.onchange] has
    been called with it once, and no timeout is armed. *)
Theorem input_immediate_edit (config : Input.InputConfig) (text : string)
    (t : nat) (w : Input.InputWorld) :
  default 0 (Input.debounce config) = 0 →
  microtasks (Input.form (user w)) = [] →
  let w1 := Input.step config w (Input.Edit t text) in
  Input.form (user w1)
  = {| errors := (if Input.required config && Input.blank (JString text)
                  then [required_message] else [])
                 ++ arrivals (Input.validators config) (JString text);
       microtasks := [] |}
  ∧ Input.bound (user w1) = JString text
  ∧ Input.reported (user w1)
    = Input.reported (user w) ++ (if Input.has_onchange config then [JString text] else [])
  ∧ pending w1 = pending w ∧ debounceMap w1 = debounceMap w.
Proof.
  intros Hz Hq w1. subst w1. cbn [Input.step].
  set (wat := Input.at_time t w).
  assert (∀ w' : Input.InputWorld, Input.held_back config w' = None) as Hopen.
  { intros w'. unfold Input.held_back.
    destruct (Input.debounce config) as [[|d]|]; done. }
  assert (∀ k c (w' : Input.InputWorld),
            DebounceTs.debounce (Input.call config) k c (Input.debounce config) w'
            = invoke (Input.call config) k c w') as Hnow.
  { intros k c w'. unfold DebounceTs.debounce. by rewrite Hz. }
  rewrite (oninput_stages config text wat _ _ _ eq_refl eq_refl eq_refl).
  rewrite !Hnow.
  set (wc := Input.set_user _ wat).
  assert (Input.touched (user wc) = true) as Htc by done.
  destruct (Input.value_is_signal config) eqn:Hsig.
  - (* the value is a signal: the write at the end starts the pass *)
    set (we := if Input.has_onchange config then _ else wc).
    assert (Input.form (user we) = Input.form (user w) ∧ Input.touched (user we) = true
            ∧ Input.shown (user we) = text
            ∧ Input.reported (user we)
              = Input.reported (user w)
                ++ (if Input.has_onchange config then [JString text] else [])
            ∧ pending we = pending w ∧ debounceMap we = debounceMap w)
      as (Hfe & Hte & Hse & Hre & Hpe & Hme).
    { subst we. destruct (Input.has_onchange config); [done|]. by rewrite app_nil_r. }
    unfold invoke. cbn [Input.call]. unfold Input.write_value. rewrite Hsig. cbv zeta.
    match goal with |- context [Input.validate config ?x ?y] => set (wl := y); set (xl := x) end.
    assert (xl = JString text) as Hxl by (subst xl; cbn; by rewrite Hse).
    destruct (validate_open config xl wl (Hopen wl)) as [f Hf].
    split.
    { rewrite (input_pass config xl wl); [|by (change (user wl) with
        {| Input.form := Input.form (user we); Input.touched := Input.touched (user we);
           Input.lastChange := Input.lastChange (user we); Input.bound := xl;
           Input.shown := Input.display config xl;
           Input.reported := Input.reported (user we) |}; cbn [Input.form]; rewrite Hfe)
        | apply Hopen].
      change (Input.touched (user wl)) with (Input.touched (user we)).
      by rewrite Hte, andb_true_r, Hxl. }
    rewrite Hf.
    split; [exact Hxl|]. split; [exact Hre|]. split; [exact Hpe | exact Hme].
  - (* the value is the component's own: the handler starts the pass *)
    destruct (validate_open config (JString text) wc (Hopen wc)) as [f Hf].
    pose proof (input_pass config (JString text) wc Hq (Hopen wc)) as Hpass.
    rewrite Htc, andb_true_r in Hpass.
    set (wd := Input.validate config (JString text) wc) in *.
    set (we := if Input.has_onchange config then _ else wd).
    assert (Input.form (user we) = Input.form (user wd)
            ∧ Input.shown (user we) = text
            ∧ Input.reported (user we)
              = Input.reported (user w)
                ++ (if Input.has_onchange config then [JString text] else [])
            ∧ pending we = pending w ∧ debounceMap we = debounceMap w)
      as (Hfe & Hse & Hre & Hpe & Hme).
    { subst we. rewrite Hf. destruct (Input.has_onchange config); [done|].
      by rewrite app_nil_r. }
    unfold invoke. cbn [Input.call]. unfold Input.write_value. rewrite Hsig. cbv zeta.
    split.
    { unfold Input.checkpoint in *.
      cbn [Input.on_form Input.set_user user Input.form] in *. by rewrite Hfe. }
    split; [cbn; by rewrite Hse|]. split; [exact Hre|]. split; [exact Hpe | exact Hme].
Qed.

Lemma touched_bound_validate config x (w : Input.InputWorld) :
  Input.bound (user (Input.validate config x w)) = Input.bound (user w)
  ∧ Input.reported (user (Input.validate config x w)) = Input.reported (user w).
Proof.
  unfold Input.validate. rewrite held_back_on_form.
  destruct (Input.held_back config w) as [d|].
  - unfold DebounceTs.debounce_later. by destruct (debounceMap _ !! _).
  - cbn [Input.on_form Input.set_user user Input.touched].
    by destruct (_ && _ && _).
Qed.

Lemma oninput_debounced_bound config text (w : Input.InputWorld) d :
  Input.value_is_signal config = true → Input.debounce config = Some d → 0 < d →
  well_formed w → tight w →
  let w' := Input.oninput config text w in
  user w' = {| Input.form := Input.form (user w); Input.touched := true;
               Input.lastChange := now w; Input.bound := Input.bound (user w);
               Input.shown := text;
               Input.reported := Input.reported (user w) |}
  ∧ now w' = now w ∧ well_formed w' ∧ tight w'
  ∧ {| handle := (if Input.has_onchange config then 1 else 0) + nextHandle w;
       due := now w + d;
       identifier := Input.inputId config +:+ "value";
       func := Input.ValueLater |} ∈ pending w'.
Proof.
  intros Hsig Hdeb Hd Hwf Ht w'. subst w'.
  unfold Input.oninput. rewrite Hsig. cbv zeta.
  rewrite Hdeb. rewrite !(debounce_positive_agree (Input.call config)) by done.
  match goal with |- context [if Input.has_onchange config then _ else ?x] =>
    set (w0 := x) end.
  assert (well_formed w0) as Hwf0 by exact Hwf.
  assert (tight w0) as Ht0 by exact Ht.
  assert (user w0 = {| Input.form := Input.form (user w); Input.touched := true;
                       Input.lastChange := now w; Input.bound := Input.bound (user w);
                       Input.shown := text;
                       Input.reported := Input.reported (user w) |}) as Hu0 by done.
  assert (now w0 = now w) as Hn0 by done.
  assert (nextHandle w0 = nextHandle w) as Hh0 by done.
  destruct (Input.has_onchange config).
  - destruct (alt_step (Input.inputId config +:+ "change")
                (Input.ChangeLater) d w0 Hwf0 Ht0)
      as (Hwf2 & Ht2 & Hu2 & Hn2 & Hh2 & _).
    set (w2 := DebounceAlt.debounce _ _ _ w0) in *.
    destruct (alt_step (Input.inputId config +:+ "value")
                (Input.ValueLater) d w2 Hwf2 Ht2)
      as (Hwf3 & Ht3 & Hu3 & Hn3 & _ & Hin3 & _).
    split; [by rewrite Hu3, Hu2|]. split; [by rewrite Hn3, Hn2|].
    split; [done|]. split; [done|].
    unfold armed in Hin3. by rewrite Hh2, Hn2, Hh0, Hn0 in Hin3.
  - destruct (alt_step (Input.inputId config +:+ "value")
                (Input.ValueLater) d w0 Hwf0 Ht0)
      as (Hwf3 & Ht3 & Hu3 & Hn3 & _ & Hin3 & _).
    split; [by rewrite Hu3|]. split; [by rewrite Hn3|].
    split; [done|]. split; [done|].
    unfold armed in Hin3. by rewrite Hh0, Hn0 in Hin3.
Qed.

(** A write to the bound signal from outside leaves the timeouts of the
    other identifiers pending; the element then shows the written value. *)
Lemma push_keeps config v t' (w : Input.InputWorld) tm :
  Input.value_is_signal config = true →
  well_formed w → tight w →
  tm ∈ pending w → identifier tm ≠ Input.inputId config +:+ "validate" →
  let w' := Input.step config w (Input.Push t' v) in
  well_formed w' ∧ tm ∈ pending w'
  ∧ microtasks (Input.form (user w')) = []
  ∧ Input.touched (user w') = Input.touched (user w)
  ∧ Input.lastChange (user w') = Input.lastChange (user w)
  ∧ Input.shown (user w') = Input.display config v.
Proof.
  intros Hsig Hwf Ht Hin Hid w'. subst w'. cbn [Input.step]. rewrite Hsig.
  unfold Input.write_value. rewrite Hsig. cbv zeta.
  match goal with |- context [Input.validate config v ?x] => set (w0 := x) end.
  assert (microtasks (Input.form (user (Input.checkpoint (Input.validate config v w0))))
          = []) as Hq by apply drain_empties.
  destruct (Input.held_back config w0) as [delay|] eqn:Hheld.
  - assert (Input.validate config v w0
            = DebounceAlt.debounce (Input.inputId config +:+ "validate")
                (Input.ValidateLater v) (Some delay) (Input.on_form clear_errors w0)) as Hv.
    { unfold Input.validate. by rewrite held_back_on_form, Hheld. }
    destruct (alt_step (Input.inputId config +:+ "validate") (Input.ValidateLater v)
                delay (Input.on_form clear_errors w0)) as (Hwf1 & _ & Hu1 & _ & _ & _ & Hkeep).
    { exact Hwf. } { exact Ht. }
    rewrite <- Hv in Hwf1, Hu1, Hkeep.
    split; [exact Hwf1|]. split; [by apply Hkeep|]. split; [exact Hq|].
    change (user (Input.checkpoint ?x)) with
      {| Input.form := drain (Input.form (user x)); Input.touched := Input.touched (user x);
         Input.lastChange := Input.lastChange (user x); Input.bound := Input.bound (user x);
         Input.shown := Input.shown (user x); Input.reported := Input.reported (user x) |}.
    cbn [Input.touched Input.lastChange Input.shown]. by rewrite Hu1.
  - destruct (validate_open config v w0 Hheld) as [f Hf].
    split; [rewrite Hf; exact Hwf|]. split; [rewrite Hf; exact Hin|].
    split; [exact Hq|]. by rewrite Hf.
Qed.

(** X11.  An [input] bound to a signal, with a debounce delay: an edit
    leaves the error list of the earlier pass as it is, since [validate]
    hangs on the signal only.  The timeout armed for the value writes to the
    signal what the element shows when it fires, and that write runs the
    pass: fired with no write to the signal since the edit, it writes and
    validates the edited text; fired after the signal was written from
    outside in between, it writes and validates the text the element shows
    for the written value. *)
Theorem input_bound_debounced (config : Input.InputConfig) (text : string)
    (v : JsValue) (t t' t2 d : nat) (w : Input.InputWorld) :
  Input.value_is_signal config = true →
  Input.debounce config = Some d → 0 < d →
  well_formed w → tight w →
  microtasks (Input.form (user w)) = [] →
  now w ≤ t → t ≤ t' → t' ≤ t2 → t + d ≤ t2 →
  let pass x := (if Input.required config && Input.blank x
                 then [required_message] else [])
                ++ arrivals (Input.validators config) x in
  let w1 := Input.step config w (Input.Edit t text) in
  let hv := (if Input.has_onchange config then 1 else 0) + nextHandle w in
  let w2 := Input.step config w1 (Input.Timeout t2 hv) in
  let w3 := Input.step config (Input.step config w1 (Input.Push t' v))
              (Input.Timeout t2 hv) in
  errors (Input.form (user w1)) = errors (Input.form (user w))
  ∧ Input.bound (user w1) = Input.bound (user w)
  ∧ Input.bound (user w2) = JString text
  ∧ errors (Input.form (user w2)) = pass (JString text)
  ∧ Input.bound (user w3) = JString (Input.display config v)
  ∧ errors (Input.form (user w3)) = pass (JString (Input.display config v)).
Proof.
  intros Hsig Hdeb Hd Hwf Ht Hq Ht1 Htp Htp2 Ht2 pass w1 hv w2 w3.
  set (wat := Input.at_time t w).
  assert (now wat = t) as Hnat by (unfold wat; simpl; lia).
  destruct (oninput_debounced_bound config text wat d Hsig Hdeb Hd Hwf Ht)
    as (Hu & Hn & Hwf' & Htight' & Hin).
  change (nextHandle wat) with (nextHandle w) in Hin.
  change (user wat) with (user w) in Hu.
  set (we := Input.oninput config text wat) in *.
  assert (w1 = Input.checkpoint we) as Hw1 by done.
  assert (Input.form (user w1) = Input.form (user w)) as Hf1.
  { rewrite Hw1. unfold Input.checkpoint.
    cbn [Input.on_form Input.set_user user Input.form]. rewrite Hu. cbn [Input.form].
    destruct (Input.form (user w)) as [e q]. simpl in Hq. subst q. reflexivity. }
  assert (Input.touched (user w1) = true ∧ Input.lastChange (user w1) = t
          ∧ Input.bound (user w1) = Input.bound (user w)
          ∧ Input.shown (user w1) = text) as (Htouched & Hlast & Hb & Hs).
  { rewrite Hw1.
    change (Input.touched (user (Input.checkpoint we))) with (Input.touched (user we)).
    change (Input.lastChange (user (Input.checkpoint we)))
      with (Input.lastChange (user we)).
    change (Input.bound (user (Input.checkpoint we))) with (Input.bound (user we)).
    change (Input.shown (user (Input.checkpoint we))) with (Input.shown (user we)).
    by rewrite Hu. }
  split; [by rewrite Hf1|]. split; [exact Hb|].
  set (tval := {| handle := hv; due := now wat + d;
                  identifier := Input.inputId config +:+ "value";
                  func := Input.ValueLater |}) in *.
  assert (well_formed w1) as Hwf1 by (rewrite Hw1; exact Hwf').
  assert (tight w1) as Htight1 by (rewrite Hw1; exact Htight').
  assert (tval ∈ pending w1) as Hin1 by (rewrite Hw1; exact Hin).
  (* what the timeout does, on any world in which it is pending *)
  assert (∀ (wp : Input.InputWorld) shownp,
            well_formed wp → tval ∈ pending wp →
            microtasks (Input.form (user wp)) = [] →
            Input.touched (user wp) = true → Input.lastChange (user wp) = t →
            Input.shown (user wp) = shownp →
            let wq := Input.step config wp (Input.Timeout t2 hv) in
            Input.bound (user wq) = JString shownp
            ∧ errors (Input.form (user wq)) = pass (JString shownp)) as Hfire.
  { intros wp shownp Hwfp Hinp Hqp Htp' Hlp Hsp wq. subst wq.
    change hv with (handle tval).
    rewrite (step_timeout config wp tval t2 Hwfp Hinp) by (simpl; lia).
    change (Input.bound (user (Input.checkpoint ?x))) with (Input.bound (user x)).
    unfold Input.checkpoint.
    cbn [Input.on_form Input.set_user user Input.form].
    rewrite fire_user. cbn [func tval Input.call]. unfold Input.write_value.
    rewrite Hsig. cbv zeta.
    match goal with |- context [Input.validate config ?x ?y] =>
      set (wl := y); set (xl := x) end.
    assert (xl = JString shownp) as Hxl.
    { subst xl. cbn [user]. change (user (Input.at_time t2 wp)) with (user wp).
      by rewrite Hsp. }
    split; [by rewrite (proj1 (touched_bound_validate config xl wl))|].
    pose proof (input_pass config xl wl) as Hpass.
    unfold Input.checkpoint in Hpass.
    cbn [Input.on_form Input.set_user user Input.form] in Hpass.
    rewrite Hpass.
    - change (Input.touched (user wl)) with (Input.touched (user wp)).
      by rewrite Htp', andb_true_r, Hxl.
    - change (Input.form (user wl)) with (Input.form (user wp)). exact Hqp.
    - apply (held_back_quiet config wl d Hdeb).
      change (Input.lastChange (user wl)) with (Input.lastChange (user wp)).
      rewrite Hlp.
      change (now wl) with ((now wp `max` t2) `max` due tval). lia. }
  assert (microtasks (Input.form (user w1)) = []) as Hq1 by (by rewrite Hf1).
  destruct (Hfire w1 text Hwf1 Hin1 Hq1 Htouched Hlast Hs) as [Hb2 He2].
  split; [exact Hb2|]. split; [exact He2|].
  destruct (push_keeps config v t' w1 tval Hsig Hwf1 Htight1 Hin1)
    as (Hwfp & Hinp & Hqp & Htchp & Hlp & Hsp).
  { simpl. intros Heq%append_inj_r. done. }
  apply (Hfire _ (Input.display config v) Hwfp Hinp Hqp); [by rewrite Htchp | by rewrite Hlp | exact Hsp].
Qed.
End InputEdits.

Section InputEditWitnesses.
Import Validation Timers DebounceRuns.

Lemma fresh_shape config t h :
  well_formed (Input.fresh config t h) ∧ tight (Input.fresh config t h).
Proof.
  split; [by apply idle_well_formed|]. intros k h' Hl. simpl in Hl.
  by rewrite lookup_empty in Hl.
Qed.

Lemma input_debounced_validation_witness :
  let w1 := Input.step Samples.username Samples.untouched (Input.Edit 2500 "ab") in
  Input.form (user w1) = {| errors := []; microtasks := [] |}
  ∧ Input.form (user (Input.step Samples.username w1 (Input.Timeout 2800 1)))
    = {| errors := ["Too short."]; microtasks := [] |}.
Proof.
  destruct (fresh_shape Samples.username 2000 1) as [Hwf Ht].
  destruct (input_debounced_validation Samples.username "ab" 2500 2800 300
              Samples.untouched eq_refl eq_refl) as [H1 H2];
    [lia | exact Hwf | exact Ht | reflexivity | simpl; lia | lia |].
  split; [exact H1 | exact H2].
Defined.

Lemma input_debounced_report_witness :
  let w1 := Input.step Samples.username Samples.untouched (Input.Edit 2500 "ab") in
  Input.bound (user w1) = JString ""
  ∧ Input.bound (user (Input.step Samples.username w1 (Input.Timeout 2800 3)))
    = JString "ab"
  ∧ Input.reported (user (Input.step Samples.username w1 (Input.Timeout 2800 2)))
    = [JString "ab"].
Proof.
  destruct (fresh_shape Samples.username 2000 1) as [Hwf Ht].
  destruct (input_debounced_report Samples.username "ab" 2500 2800 300
              Samples.untouched eq_refl eq_refl) as (H1 & _ & H2 & H3);
    [lia | exact Hwf | exact Ht | simpl; lia | lia |].
  split; [exact H1|]. split; [exact H2 | exact (H3 eq_refl)].
Defined.

Lemma input_immediate_edit_witness :
  let w1 := Input.step Samples.nickname (Input.fresh Samples.nickname 2000 1)
              (Input.Edit 2500 "ab") in
  Input.form (user w1) = {| errors := ["Too short."]; microtasks := [] |}
  ∧ Input.bound (user w1) = JString "ab"
  ∧ Input.reported (user w1) = [JString "ab"]
  ∧ pending w1 = [].
Proof.
  destruct (input_immediate_edit Samples.nickname "ab" 2500
              (Input.fresh Samples.nickname 2000 1) eq_refl eq_refl)
    as (H1 & H2 & H3 & H4 & _).
  split; [exact H1|]. split; [exact H2|]. split; [exact H3 | exact H4].
Defined.

Lemma input_bound_debounced_witness :
  let w0 := Input.checkpoint (Input.input Samples.bound_name 2000 1) in
  let w1 := Input.step Samples.bound_name w0 (Input.Edit 2500 "") in
  errors (Input.form (user w1)) = []
  ∧ Input.bound (user w1) = JString "abc"
  ∧ errors (Input.form (user (Input.step Samples.bound_name w1 (Input.Timeout 2800 1))))
    = [required_message; "Too short."]
  ∧ Input.bound (user (Input.step Samples.bound_name
                         (Input.step Samples.bound_name w1 (Input.Push 2600 (JString "hello")))
                         (Input.Timeout 2800 1)))
    = JString "hello".
Proof.
  assert (well_formed (Input.checkpoint (Input.input Samples.bound_name 2000 1))
          ∧ tight (Input.checkpoint (Input.input Samples.bound_name 2000 1)))
    as [Hwf Ht].
  { split; [by apply idle_well_formed|]. intros k h' Hl. simpl in Hl.
    by rewrite lookup_empty in Hl. }
  destruct (input_bound_debounced Samples.bound_name "" (JString "hello") 2500 2600 2800 300
              (Input.checkpoint (Input.input Samples.bound_name 2000 1))
              eq_refl eq_refl) as (H1 & H2 & _ & H3 & H4 & _);
    [lia | exact Hwf | exact Ht | reflexivity | simpl; lia | lia | lia | lia |].
  split; [exact H1|]. split; [exact H2|]. split; [exact H3 | exact H4].
Defined.

End InputEditWitnesses.

(** ** More on the searchable select *)
Section SelectExtras.
Import SearchableSelect.
Open Scope Z_scope.

Lemma step_display s ev :
  selectedId s = (match at_index (filtered s) (selectedIndex s) with
                  | Some o => id o
                  | None => JUndefined
                  end) →
  filtered (step s ev) = filtered s
  ∧ selectedId (step s ev)
    = match at_index (filtered (step s ev)) (selectedIndex (step s ev)) with
      | Some o => id o
      | None => JUndefined
      end.
Proof.
  intros Hs. destruct ev as [|key|text| |k|v|os]; cbn [step];
    try (split; [reflexivity | first [exact Hs | reflexivity]]).
  - destruct key; split; first [reflexivity | exact Hs].
  - destruct (optionsVisible s); [|by split].
    destruct (filtered s !! k); by split.
Qed.

(** X12.  The list the dropdown renders never changes after construction,
    whatever is typed and whatever is written to the options signal, and the
    highlighted id is at all times the id of the rendered option at the
    highlight index, or [undefined] when that index holds no option. *)
Theorem select_display_invariant (os : list SelectOption) (v : JsValue)
    (evs : list Event) :
  let s := run os v evs in
  filtered s = os
  ∧ selectedId s = match at_index os (selectedIndex s) with
                   | Some o => id o
                   | None => JUndefined
                   end.
Proof.
  cbv zeta. unfold run.
  induction evs as [|ev evs IH] using rev_ind; [by split|].
  rewrite foldl_app. cbn [foldl]. destruct IH as [Hf Hs].
  destruct (step_display (foldl step (searchableSelect os v) evs) ev) as [Hf' Hs'].
  { by rewrite Hf. }
  rewrite Hf' in Hs'. rewrite Hf', Hf. rewrite Hf in Hs'. by split.
Qed.

(** X13.  A select whose rendered list is empty: both arrow keys turn the
    highlight index into [NaN] and the highlighted id into [undefined]; Enter
    then, as before, commits nothing and closes the dropdown. *)
Theorem arrows_on_empty_list (s : State) :
  filtered s = [] →
  selectedIndex (onkeydown ArrowDown s) = NaN
  ∧ selectedIndex (onkeydown ArrowUp s) = NaN
  ∧ selectedId (onkeydown ArrowDown s) = JUndefined
  ∧ selectedId (onkeydown ArrowUp s) = JUndefined
  ∧ value (onkeydown Enter (onkeydown ArrowDown s)) = value s
  ∧ value (onkeydown Enter s) = value s
  ∧ optionsVisible (onkeydown Enter s) = false.
Proof.
  intros He.
  assert (∀ i, js_rem i (length_of (filtered s)) = NaN) as Hrem.
  { intros i. rewrite He. by destruct i. }
  assert (at_index (filtered s) (selectedIndex s) = None) as Hnone.
  { rewrite He. destruct (selectedIndex s) as [z|]; [|done]. simpl.
    by destruct (0 <=? z). }
  cbn [onkeydown]. rewrite !Hrem.
  unfold write_selectedIndex, updateSelectedId, store_selectedIndex, write_selectedId.
  cbn. rewrite Hnone. by repeat split.
Qed.

Lemma arrows_on_empty_list_witness :
  selectedIndex (onkeydown ArrowDown (run [] JNull [Focus])) = NaN
  ∧ value (onkeydown Enter (onkeydown ArrowDown (run [] JNull [Focus]))) = JNull.
Proof.
  destruct (arrows_on_empty_list (run [] JNull [Focus]) eq_refl)
    as (H1 & _ & _ & _ & H2 & _).
  split; [exact H1 | exact H2].
Defined.

Lemma arrow_down_fields s i :
  filtered s ≠ [] → selectedIndex s = Finite i → 0 ≤ i + 1 →
  filtered (onkeydown ArrowDown s) = filtered s
  ∧ selectedIndex (onkeydown ArrowDown s)
    = Finite ((i + 1) mod Z.of_nat (length (filtered s))).
Proof.
  intros Hne Hi Hpos. split; [done|]. cbn [onkeydown]. rewrite Hi.
  unfold write_selectedIndex, updateSelectedId, store_selectedIndex, write_selectedId.
  cbn. assert (Z.of_nat (length (filtered s)) ≠ 0) as Hn.
  { destruct (filtered s); [done | simpl; lia]. }
  apply Z.eqb_neq in Hn as Hnb. rewrite Hnb. f_equal.
  apply Z.rem_mod_nonneg; lia.
Qed.

Lemma arrow_up_fields s i :
  filtered s ≠ [] → selectedIndex s = Finite i → 0 ≤ i →
  filtered (onkeydown ArrowUp s) = filtered s
  ∧ selectedIndex (onkeydown ArrowUp s)
    = Finite ((i - 1) mod Z.of_nat (length (filtered s))).
Proof.
  intros Hne Hi Hpos. split; [done|]. cbn [onkeydown]. rewrite Hi.
  unfold write_selectedIndex, updateSelectedId, store_selectedIndex, write_selectedId.
  cbn. assert (0 < Z.of_nat (length (filtered s))) as Hn.
  { destruct (filtered s); [done | simpl; lia]. }
  assert ((Z.of_nat (length (filtered s)) =? 0) = false) as -> by (apply Z.eqb_neq; lia).
  f_equal. rewrite Z.rem_mod_nonneg by lia.
  replace (i + -1 + Z.of_nat (length (filtered s)))
    with (i - 1 + 1 * Z.of_nat (length (filtered s))) by lia.
  by rewrite Z.mod_add by lia.
Qed.

Lemma arrow_down_iter s i (j : nat) :
  filtered s ≠ [] → selectedIndex s = Finite i → 0 ≤ i →
  filtered (Nat.iter (S j) (onkeydown ArrowDown) s) = filtered s
  ∧ selectedIndex (Nat.iter (S j) (onkeydown ArrowDown) s)
    = Finite ((i + Z.of_nat (S j)) mod Z.of_nat (length (filtered s))).
Proof.
  intros Hne Hi Hpos.
  assert (0 < Z.of_nat (length (filtered s))) as Hn.
  { destruct (filtered s); [done | simpl; lia]. }
  induction j as [|j IH].
  - change (Nat.iter 1 (onkeydown ArrowDown) s) with (onkeydown ArrowDown s).
    destruct (arrow_down_fields s i Hne Hi) as [Hf Hx]; [lia|].
    split; [done|]. rewrite Hx. do 2 f_equal.
  - destruct IH as [Hf Hx].
    change (Nat.iter (S (S j)) (onkeydown ArrowDown) s)
      with (onkeydown ArrowDown (Nat.iter (S j) (onkeydown ArrowDown) s)).
    destruct (arrow_down_fields _ _ (ltac:(by rewrite Hf)) Hx) as [Hf' Hx'].
    { pose proof (Z.mod_pos_bound (i + Z.of_nat (S j)) _ Hn). lia. }
    split; [by rewrite Hf', Hf|]. rewrite Hx', Hf.
    rewrite Zplus_mod_idemp_l. do 2 f_equal. lia.
Qed.

(** X14.  With the highlight on an option of a non-empty rendered list,
    ArrowUp undoes ArrowDown and ArrowDown undoes ArrowUp, and as many
    ArrowDown presses as the list is long lead back to the same option. *)
Theorem arrows_round_trip (s : State) (i : Z) :
  selectedIndex s = Finite i →
  0 ≤ i < Z.of_nat (length (filtered s)) →
  selectedIndex (onkeydown ArrowUp (onkeydown ArrowDown s)) = Finite i
  ∧ selectedIndex (onkeydown ArrowDown (onkeydown ArrowUp s)) = Finite i
  ∧ selectedIndex (Nat.iter (length (filtered s)) (onkeydown ArrowDown) s) = Finite i.
Proof.
  intros Hi Hr.
  assert (filtered s ≠ []) as Hne.
  { destruct (filtered s); [simpl in Hr; lia | done]. }
  set (n := Z.of_nat (length (filtered s))) in *.
  destruct (arrow_down_fields s i Hne Hi) as [Hfd Hd]; [lia|].
  destruct (arrow_up_fields s i Hne Hi) as [Hfu Hu]; [lia|].
  fold n in Hd, Hu.
  pose proof (Z.mod_pos_bound (i + 1) n ltac:(lia)) as Hb1.
  pose proof (Z.mod_pos_bound (i - 1) n ltac:(lia)) as Hb2.
  split; [|split].
  - destruct (arrow_up_fields _ _ (ltac:(by rewrite Hfd)) Hd) as [_ Hx]; [lia|].
    rewrite Hx, Hfd. fold n. f_equal.
    rewrite Zminus_mod_idemp_l. replace (i + 1 - 1) with i by lia.
    apply Z.mod_small. lia.
  - destruct (arrow_down_fields _ _ (ltac:(by rewrite Hfu)) Hu) as [_ Hx]; [lia|].
    rewrite Hx, Hfu. fold n. f_equal.
    rewrite Zplus_mod_idemp_l. replace (i - 1 + 1) with i by lia.
    apply Z.mod_small. lia.
  - destruct (length (filtered s)) as [|m] eqn:Hlen; [lia|].
    destruct (arrow_down_iter s i m Hne Hi) as [_ Hx]; [lia|].
    rewrite Hx, Hlen. fold n. f_equal.
    replace (i + n) with (i + 1 * n) by lia.
    rewrite Z.mod_add by lia. apply Z.mod_small. lia.
Qed.

Lemma arrows_round_trip_witness :
  let s := run [Samples.optA; Samples.optB; Samples.optC] JNull [KeyDown ArrowDown] in
  selectedIndex s = Finite 1
  ∧ selectedIndex (onkeydown ArrowUp (onkeydown ArrowDown s)) = Finite 1
  ∧ selectedIndex (Nat.iter 3 (onkeydown ArrowDown) s) = Finite 1.
Proof.
  split; [reflexivity|].
  destruct (arrows_round_trip
              (run [Samples.optA; Samples.optB; Samples.optC] JNull [KeyDown ArrowDown])
              1 eq_refl) as (H1 & _ & H3); [simpl; lia|].
  split; [exact H1 | exact H3].
Defined.

End SelectExtras.

Section SelectTypeAhead.
Import SearchableSelect.
Open Scope Z_scope.

Lemma findIndex_app_first {A} (p : A → bool) l1 x l2 :
  Forall (fun y => p y = false) l1 → p x = true →
  findIndex p (l1 ++ x :: l2) = Z.of_nat (length l1).
Proof.
  intros Hl1 Hx. induction Hl1 as [|y l1 Hy _ IH]; simpl.
  - by rewrite Hx.
  - rewrite Hy, IH. destruct (Z.of_nat (length l1) =? -1) eqn:He; [|lia].
    apply Z.eqb_eq in He. lia.
Qed.

Lemma at_index_middle {A} (l1 : list A) x l2 :
  at_index (l1 ++ x :: l2) (Finite (Z.of_nat (length l1))) = Some x.
Proof.
  unfold at_index. assert ((0 <=? Z.of_nat (length l1)) = true) as ->.
  { apply Z.leb_le. lia. }
  rewrite Nat2Z.id. by rewrite list_lookup_middle.
Qed.

(** X15.  Typing, then Enter: when the options signal still holds the list
    the select was created with, committing the typed text highlights the
    first option whose name contains it, case ignored, and Enter then sets
    the value to that option's id (if the id is not [null] or [undefined]),
    shows its name and closes the dropdown. *)
Theorem typed_text_then_enter (s : State) (text : string)
    (l1 l2 : list SelectOption) (o : SelectOption) :
  options s = filtered s →
  filtered s = l1 ++ o :: l2 →
  Forall (fun o' => matches text o' = false) l1 →
  matches text o = true →
  nullish (id o) = false →
  let s1 := commit_text text s in
  let s2 := onkeydown Enter s1 in
  selectedIndex s1 = Finite (Z.of_nat (length l1))
  ∧ selectedId s1 = id o
  ∧ value s2 = id o ∧ search s2 = name o ∧ optionsVisible s2 = false.
Proof.
  intros Hsame Hf Hl1 Ho Hid s1 s2.
  assert (selectedIndex s1 = Finite (Z.of_nat (length l1))) as Hi.
  { subst s1. unfold commit_text.
    destruct (write_search_fields text s) as (_ & _ & _ & _ & _ & ->).
    rewrite Hsame, Hf. by rewrite findIndex_app_first. }
  assert (filtered s1 = l1 ++ o :: l2) as Hf1 by exact Hf.
  assert (at_index (filtered s1) (selectedIndex s1) = Some o) as Hsel.
  { rewrite Hi, Hf1. apply at_index_middle. }
  split; [exact Hi|]. split.
  - assert (selectedId s1
            = match at_index (filtered s1) (selectedIndex s1) with
              | Some o' => id o'
              | None => JUndefined
              end) as -> by done.
    by rewrite Hsel.
  - by apply commit_by_enter.
Qed.

Lemma typed_text_then_enter_witness :
  let s := run [Samples.optA; Samples.optB; Samples.optC] JNull [Focus] in
  value (onkeydown Enter (commit_text "b" s)) = JNumber 2
  ∧ search (onkeydown Enter (commit_text "b" s)) = "B".
Proof.
  destruct (typed_text_then_enter
              (run [Samples.optA; Samples.optB; Samples.optC] JNull [Focus]) "b"
              [Samples.optA] [Samples.optC] Samples.optB eq_refl eq_refl)
    as (_ & _ & Hv & Hs & _); [by repeat constructor | done | done |].
  split; [exact Hv | exact Hs].
Defined.

End SelectTypeAhead.

Section SelectConstruction.
Import SearchableSelect.
Open Scope Z_scope.

Lemma includes_empty s : includes s "" = true.
Proof. by destruct s. Qed.

(** X16.  A select created with a value that is the id of none of its
    options starts with an empty text and a closed dropdown; the empty text
    is contained in every name, so the first option is highlighted, and
    nothing is when there are no options. *)
Theorem select_created_without_match (os : list SelectOption) (v : JsValue) :
  Forall (fun o => id o ≠ v) os →
  let s := searchableSelect os v in
  value s = v ∧ search s = "" ∧ optionsVisible s = false
  ∧ match os with
    | [] => selectedIndex s = Finite (-1) ∧ selectedId s = JUndefined
    | o :: _ => selectedIndex s = Finite 0 ∧ selectedId s = id o
    end.
Proof.
  intros Hnone s. subst s. unfold searchableSelect.
  rewrite (label_of_none os v Hnone).
  unfold updateSelectedId, write_selectedId, store_selectedIndex. cbn.
  split; [done|]. split; [done|]. split; [done|].
  destruct os as [|o os]; [done|]. cbn.
  unfold matches. cbn. by rewrite includes_empty.
Qed.

Lemma select_created_without_match_witness :
  search (searchableSelect [Samples.optA; Samples.optB] JNull) = ""
  ∧ selectedId (searchableSelect [Samples.optA; Samples.optB] JNull) = JNumber 1.
Proof.
  destruct (select_created_without_match [Samples.optA; Samples.optB] JNull)
    as (_ & Hs & _ & _ & Hid).
  - repeat constructor; discriminate.
  - split; [exact Hs | exact Hid].
Defined.

End SelectConstruction.

Section Rearm.
Import Timers.

(** X17.  The callback of a timeout runs [func()] before it deletes the map
    entry.  A function that debounces again under its own identifier
    therefore ends up with its new timeout pending and no entry for it in
    the map: a later call under that identifier does not clear it. *)
Theorem rearm_inside_callback {F U} (call : F → World F U → World F U)
    (tm : Timer F) (g : F) (d : nat) (w : World F U) :
  (∀ w', call (func tm) w' = DebounceTs.debounce_later (identifier tm) g d w') →
  let w1 := fire call tm w in
  let rearmed := {| handle := nextHandle w; due := (now w `max` due tm) + d;
                    identifier := identifier tm; func := g |} in
  debounceMap w1 !! identifier tm = None
  ∧ rearmed ∈ pending w1
  ∧ ∀ h delay, 0 < delay →
      rearmed ∈ pending (DebounceTs.debounce call (identifier tm) h (Some delay) w1).
Proof.
  intros Hcall w1 rearmed.
  assert (debounceMap w1 !! identifier tm = None
          ∧ pending w1
            = filter (fun tm' => Some (handle tm') ≠ debounceMap w !! identifier tm)
                (filter (fun tm' => handle tm' ≠ handle tm) (pending w))
              ++ [rearmed]) as [Hm Hp].
  { subst w1 rearmed. unfold fire, callback, invoke. rewrite Hcall.
    unfold DebounceTs.debounce_later, set_debounceMap. cbn [debounceMap].
    destruct (debounceMap w !! identifier tm) as [h0|] eqn:Hl; cbn.
    - split; [apply lookup_delete_eq|]. f_equal.
      apply list_filter_iff. intros tm'. split; [congruence|].
      intros Hne Heq. apply Hne. by rewrite Heq.
    - split; [apply lookup_delete_eq|]. f_equal. symmetry. apply filter_all.
      apply Forall_forall. by intros. }
  split; [exact Hm|]. split.
  { rewrite Hp. apply elem_of_app. right. by left. }
  intros h delay Hdelay. rewrite debounce_positive_agree by done.
  destruct (debounce_alt_fields (identifier tm) h (Some delay) w1)
    as (_ & _ & _ & _ & _ & Hp').
  rewrite Hp'. apply elem_of_app. left. unfold kept. rewrite Hm.
  apply list_elem_of_filter. split; [done|].
  rewrite Hp. apply elem_of_app. right. by left.
Qed.

Lemma rearm_inside_callback_witness :
  let tm := {| handle := 3; due := 1050; identifier := "poll"; func := "tick" |} in
  let w := {| now := 1000; nextHandle := 4; pending := [tm];
              debounceMap := {[ "poll" := 3 ]}; ran := []; user := [] |} in
  debounceMap (fire Samples.again tm w) !! "poll" = None
  ∧ map identifier (pending (fire Samples.again tm w)) = ["poll"].
Proof.
  cbv zeta.
  destruct (rearm_inside_callback Samples.again
              {| handle := 3; due := 1050; identifier := "poll"; func := "tick" |}
              "tick" 50
              {| now := 1000; nextHandle := 4;
                 pending := [{| handle := 3; due := 1050; identifier := "poll";
                                func := "tick" |}];
                 debounceMap := {[ "poll" := 3 ]}; ran := []; user := [] |})
    as (Hm & _ & _).
  - intros w'. reflexivity.
  - split; [exact Hm | reflexivity].
Defined.

End Rearm.

(** ** The input component re-arming its own validation *)
Section InputRearm.
Import Validation Timers.

(** C2.  [validate] of an [input] bound to a signal debounces itself under
    [inputId + "validate"], also when it is called by the timeout of an
    earlier such call; the callback of that timeout then deletes the entry
    of the new timeout.  On the run below the timeout that fires at 2900
    leaves such a timeout behind (handle 4).  The write of "p1" at 2950
    makes the first call, [debounce(k, () => validate("p1"), 300)]; when
    timeout 4 fires at 3200 its callback deletes the entry of the first
    call.  The write at 3210 makes the second call under [k], before the
    delay of the first has elapsed, and finds nothing to clear.  The
    function of the first call is then called at 3250; being held back
    once more it clears the timeout of the second call, so that the
    function of the second call is never called, and the field ends up
    validated for "p1" while the signal holds the later value. *)
Theorem first_call_still_runs :
  let k := "b1validate" in
  let config := Samples.bound_name in
  let before := Input.run config 2000 1
                  [Input.Edit 2500 "x"; Input.Push 2600 (JString "hello");
                   Input.Timeout 2800 1; Input.Edit 2850 "y"; Input.Timeout 2900 2] in
  let first := Input.step config before (Input.Push 2950 (JString "p1")) in
  let second := foldl (Input.step config) first
                  [Input.Timeout 3150 3; Input.Timeout 3200 4; Input.Edit 3205 "z";
                   Input.Push 3210 (JString "p2 is fine")] in
  let after := Input.step config second (Input.Timeout 3250 5) in
  let final := foldl (Input.step config) after
                 [Input.Timeout 3505 6; Input.Timeout 3550 8] in
  let t1 := {| handle := 5; due := 3250; identifier := k;
               func := Input.ValidateLater (JString "p1") |} in
  let t2 := {| handle := 7; due := 3510; identifier := k;
               func := Input.ValidateLater (JString "p2 is fine") |} in
  (* the first call, at 2950 *)
  (now first = 2950 ∧ last (pending first) = Some t1
   ∧ debounceMap first !! k = Some 5)
  (* the second call, at 3210: the timeout of the first is still pending *)
  ∧ (now second = 3210 ∧ filter (fun tm => identifier tm = k) (pending second) = [t1; t2]
     ∧ debounceMap second !! k = Some 7)
  (* the function of the first call is called *)
  ∧ calls_of k after
    = calls_of k second ++ [(3250, k, Input.ValidateLater (JString "p1"))]
  (* the function of the second call never is *)
  ∧ (t2 ∉ pending after)
  ∧ calls_of k final
    = calls_of k after ++ [(3550, k, Input.ValidateLater (JString "p1"))]
  ∧ pending final = []
  ∧ Input.bound (user final) = JString "p2 is fine"
  ∧ errors (Input.form (user final)) = ["Too short."].
Proof.
  cbv zeta. split_and!; try (vm_compute; reflexivity).
  vm_compute. intros Hin. repeat (apply elem_of_cons in Hin as [Hin|Hin]; [discriminate|]).
  by apply elem_of_nil in Hin.
Qed.

End InputRearm.
